(** * Compliance engine of the 90/180-day stay tracker (src/src/main.tsx)

    Shallow embedding of the pure date arithmetic of [main.tsx]:
    [normalizeTrips], [calculateUsedDaysWithinWindow], [canStayForPeriod],
    [getMaxSafeStayFromDate] and the presence-set edits [toggleDate],
    [addTripRange] with their common [updateTripsFromSet].

    Calendar dates are modelled as day numbers ([Z]): [parseISO] yields a
    local midnight, [addDays d n] is [d + n], [differenceInCalendarDays a b]
    is [a - b], [isBefore]/[isAfter] are [<] and [>], and for well-formed
    "yyyy-MM-dd" strings both [localeCompare] and the default string sort
    order dates chronologically.  Formatting a date for display
    ([DISPLAY_DATE_FORMAT]) is abstracted away: the date itself is kept. *)

From Stdlib Require Import ZArith List Lia Sorting.Sorted Permutation.
From stdpp Require Import base gmap sets strings.
Import ListNotations.
Open Scope Z_scope.

(** ** Data model *)

Abbreviation date := Z (only parsing).

Record Trip := mkTrip {
  trip_id : string;
  entryDate : date;
  exitDate : date
}.

(** A day is covered by a trip when it lies in [entryDate, exitDate]. *)
Definition in_trip (t : Trip) (d : date) : Prop :=
  entryDate t <= d <= exitDate t.

Definition in_tripb (t : Trip) (d : date) : bool :=
  (entryDate t <=? d) && (d <=? exitDate t).

Definition covered (trips : list Trip) (d : date) : Prop :=
  Exists (fun t => in_trip t d) trips.

Definition valid_trip (t : Trip) : Prop := entryDate t <= exitDate t.

(** ** Stable insertion sort ([Array.prototype.sort] is stable) *)

Section Sort.
Context {A : Type} (key : A -> Z).

Fixpoint insert_by (x : A) (l : list A) : list A :=
  match l with
  | [] => [x]
  | y :: l' => if key x <=? key y then x :: l else y :: insert_by x l'
  end.

Fixpoint sort_by (l : list A) : list A :=
  match l with
  | [] => []
  | x :: l' => insert_by x (sort_by l')
  end.
End Sort.

(** ** normalizeTrips (main.tsx, lines 70-100) *)

(** The [for] loop over [sorted[1..]], with [current] as accumulator. *)
Fixpoint normalize_loop (current : Trip) (rest : list Trip) : list Trip :=
  match rest with
  | [] => [current]
  | next :: rest' =>
      (* isBefore(nextStart, currentEnd + 1) || nextStart == currentEnd + 1 *)
      if entryDate next <=? exitDate current + 1 then
        let maxExit :=
          if exitDate current <? exitDate next then exitDate next
          else exitDate current in
        normalize_loop (mkTrip (trip_id current) (entryDate current) maxExit) rest'
      else current :: normalize_loop next rest'
  end.

Definition normalizeTrips (trips : list Trip) : list Trip :=
  match sort_by entryDate trips with
  | [] => []
  | first :: rest => normalize_loop first rest
  end.

(** ** calculateUsedDaysWithinWindow (main.tsx, lines 102-122) *)

Definition overlap_days (windowStart refDate : date) (trip : Trip) : Z :=
  let tripStart := entryDate trip in
  let tripEnd := exitDate trip in
  let overlapStart := if tripStart <? windowStart then windowStart else tripStart in
  let overlapEnd := if refDate <? tripEnd then refDate else tripEnd in
  if negb (overlapEnd <? overlapStart) then (overlapEnd - overlapStart) + 1 else 0.

Definition calculateUsedDaysWithinWindow (trips : list Trip) (referenceDate : date) : Z :=
  let windowStart := referenceDate - 179 in
  fold_left (fun daysUsed trip => daysUsed + overlap_days windowStart referenceDate trip)
    trips 0.

(** ** canStayForPeriod (main.tsx, lines 124-161) *)

Record StayCheck := mkStayCheck {
  isAllowed : bool;
  violationDate : option date;
  usedOnExit : Z
}.

(** The day loop: [n] days left to scan, starting at [checkDate].  It
    returns the first day whose usage exceeds 90, with that usage. *)
Fixpoint scan_days (combined : list Trip) (checkDate : date) (n : nat)
  : option (date * Z) :=
  match n with
  | O => None
  | S n' =>
      let used := calculateUsedDaysWithinWindow combined checkDate in
      if 90 <? used then Some (checkDate, used)
      else scan_days combined (checkDate + 1) n'
  end.

Definition canStayForPeriod (existingTrips : list Trip) (plannedEntry plannedExit : date)
  : StayCheck :=
  let tempTrip := mkTrip "temp" plannedEntry plannedExit in
  let combinedTrips := normalizeTrips (existingTrips ++ [tempTrip]) in
  let days := plannedExit - plannedEntry + 1 in
  match scan_days combinedTrips plannedEntry (Z.to_nat days) with
  | Some (dateStr, used) => mkStayCheck false (Some dateStr) used
  | None =>
      let finalUsed := calculateUsedDaysWithinWindow combinedTrips plannedExit in
      mkStayCheck true None finalUsed
  end.

(** ** getMaxSafeStayFromDate (main.tsx, lines 163-181) *)

Record MaxStay := mkMaxStay {
  maxDays : Z;
  untilDate : date
}.

(** [for (let i = 1; i <= 90; i++)] with [break] on the first refused length;
    [fuel] is the number of iterations left. *)
Fixpoint max_stay_loop (trips : list Trip) (plannedEntry : date) (i : Z) (fuel : nat)
  (safeLength : Z) : Z :=
  match fuel with
  | O => safeLength
  | S fuel' =>
      let currentExit := plannedEntry + (i - 1) in
      if isAllowed (canStayForPeriod trips plannedEntry currentExit)
      then max_stay_loop trips plannedEntry (i + 1) fuel' i
      else safeLength
  end.

Definition getMaxSafeStayFromDate (trips : list Trip) (plannedEntry : date) : MaxStay :=
  let safeLength := max_stay_loop trips plannedEntry 1 90 0 in
  mkMaxStay safeLength (plannedEntry + (safeLength - 1)).

(** ** Presence sets: expand, updateTripsFromSet, toggleDate, addTripRange *)

(** Adds the [n] days [start, start + 1, ...] to the set. *)
Fixpoint add_days (dateSet : gset Z) (start : date) (n : nat) : gset Z :=
  match n with
  | O => dateSet
  | S n' => add_days (dateSet ∪ {[start]}) (start + 1) n'
  end.

(** [for (i = 0; i <= differenceInCalendarDays(end, start); i++) dateSet.add(...)] *)
Definition add_trip_days (dateSet : gset Z) (t : Trip) : gset Z :=
  add_days dateSet (entryDate t) (Z.to_nat (exitDate t - entryDate t + 1)).

(** The [p.trips.forEach] that fills [dateSet], shared by [toggleDate],
    [addTripRange] and [DashboardScreen]. *)
Definition expand (trips : list Trip) : gset Z :=
  fold_left add_trip_days trips ∅.

(** The run-length loop of [updateTripsFromSet]; [uuid k] stands for the
    [k]-th value returned by [crypto.randomUUID()]. *)
Fixpoint rle_loop (uuid : nat -> string) (k : nat) (tripStart tripPrev : date)
  (rest : list date) : list Trip :=
  match rest with
  | [] => [mkTrip (uuid k) tripStart tripPrev]
  | curr :: rest' =>
      if curr - tripPrev =? 1 then rle_loop uuid k tripStart curr rest'
      else mkTrip (uuid k) tripStart tripPrev :: rle_loop uuid (S k) curr curr rest'
  end.

(** updateTripsFromSet (main.tsx, lines 235-260), on the trip list only. *)
Definition updateTripsFromSet (uuid : nat -> string) (dateSet : gset Z) : list Trip :=
  match sort_by (fun d => d) (elements dateSet) with
  | [] => []
  | d0 :: rest => rle_loop uuid 0 d0 d0 rest
  end.

(** toggleDate (main.tsx, lines 262-281), on the active profile's trips. *)
Definition toggleDate (uuid : nat -> string) (trips : list Trip) (d : date) : list Trip :=
  let dateSet := expand trips in
  let dateSet' := if decide (d ∈ dateSet) then dateSet ∖ {[d]} else dateSet ∪ {[d]} in
  updateTripsFromSet uuid dateSet'.

(** addTripRange (main.tsx, lines 283-310), on the active profile's trips. *)
Definition addTripRange (uuid : nat -> string) (trips : list Trip) (d1 d2 : date) : list Trip :=
  let dateSet := expand trips in
  let start := if d1 <? d2 then d1 else d2 in
  let end_ := if d2 <? d1 then d1 else d2 in
  updateTripsFromSet uuid (add_days dateSet start (Z.to_nat (end_ - start + 1))).

(** The NormalizedIntervalSet invariant between consecutive trips. *)
Definition gap_ok (a b : Trip) : Prop :=
  entryDate a <= entryDate b /\ exitDate a + 2 <= entryDate b.

Definition normalized (trips : list Trip) : Prop := Sorted gap_ok trips.

(** A fixed identity supply for concrete runs of the edits. *)
Definition uid (k : nat) : string := "t".

(** Entry and exit dates of a trip list, identities dropped. *)
Definition dates_of (l : list Trip) : list (Z * Z) :=
  map (fun t => (entryDate t, exitDate t)) l.

(** The 180 days of the window ending at [referenceDate], oldest first. *)
Definition window (referenceDate : date) : list date :=
  map (fun i => referenceDate - 179 + Z.of_nat i) (seq 0 180).

(** Number of days of [days] on which [p] holds. *)
Definition count_days (p : date -> bool) (days : list date) : Z :=
  Z.of_nat (length (List.filter p days)).

Definition coveredb (trips : list Trip) (d : date) : bool :=
  existsb (fun t => in_tripb t d) trips.

(** Order of a sort by [key]. *)
Definition key_le {A : Type} (key : A -> Z) (a b : A) : Prop := key a <= key b.

Definition entry_le : Trip -> Trip -> Prop := key_le entryDate.

Definition pairwise_disjoint (trips : list Trip) : Prop :=
  forall (i j : nat) (a b : Trip), (i < j)%nat -> trips !! i = Some a -> trips !! j = Some b ->
  forall d, ~ (in_trip a d /\ in_trip b d).

(** The trips checked by [canStayForPeriod]: the existing trips with the
    candidate stay [tempTrip], normalized. *)
Definition combinedTrips (existingTrips : list Trip) (plannedEntry plannedExit : date)
  : list Trip :=
  normalizeTrips (existingTrips ++ [mkTrip "temp" plannedEntry plannedExit]).

(** Trip lists produced by an edit: the NormalizedIntervalSet invariant,
    valid trips, a fixpoint of [normalizeTrips], and a usage that counts
    each covered day of the window once. *)
Definition edit_output_ok (trips : list Trip) : Prop :=
  normalized trips /\ pairwise_disjoint trips /\ Forall valid_trip trips /\
  normalizeTrips trips = trips /\
  forall referenceDate, calculateUsedDaysWithinWindow trips referenceDate =
    count_days (coveredb trips) (window referenceDate).

(** Comparison case split for the branches of the embedded code. *)
Ltac cmp_cases :=
  repeat match goal with
  | |- context [?x <=? ?y] => destruct (Z.leb_spec x y)
  | |- context [?x <? ?y] => destruct (Z.ltb_spec x y)
  end.

(** ** WindowBreakdown: violation days (main.tsx, lines 584-612) *)

(** [eachDayOfInterval({ start, end })], called here with [start <= end]. *)
Definition eachDayOfInterval (start end_ : date) : list date :=
  map (fun i => start + Z.of_nat i) (seq 0 (Z.to_nat (end_ - start + 1))).

(** [trips.some(t => !isBefore(d, tStart) && !isAfter(d, tEnd))] *)
Definition isPresent (trips : list Trip) (d : date) : bool :=
  existsb (fun t => negb (d <? entryDate t) && negb (exitDate t <? d)) trips.

Definition violationDays (trips : list Trip) (referenceDate : date) : list date :=
  let windowStart := referenceDate - 179 in
  let presentDaysInWindow :=
    List.filter (isPresent trips) (eachDayOfInterval windowStart referenceDate) in
  List.filter (fun d => 90 <? calculateUsedDaysWithinWindow trips d) presentDaysInWindow.

(** ** DashboardScreen: presence on the reference date (main.tsx, lines 703-770) *)

(** [markedDates.has(refDate)]; [markedDates] is filled as in [expand]. *)
Definition isPresentOnRefDate (trips : list Trip) (refDate : date) : bool :=
  bool_decide (refDate ∈ expand trips).

(** The "Outside" button: [isPresentOnRefDate && toggleDate(refDate)]. *)
Definition pressOutside (uuid : nat -> string) (trips : list Trip) (refDate : date)
  : list Trip :=
  if isPresentOnRefDate trips refDate then toggleDate uuid trips refDate else trips.

(** The "Inside" button: [!isPresentOnRefDate && toggleDate(refDate)]. *)
Definition pressInside (uuid : nat -> string) (trips : list Trip) (refDate : date)
  : list Trip :=
  if negb (isPresentOnRefDate trips refDate) then toggleDate uuid trips refDate else trips.

(** ** CalculatorScreen (main.tsx, lines 846-886) *)

(** The effect computing [result]: [null] when [isBefore(end, start)]. *)
Definition calculatorResult (trips : list Trip) (entry exit : date) : option StayCheck :=
  if negb (exit <? entry) then Some (canStayForPeriod trips entry exit) else None.

Definition duration (entry exit : date) : Z :=
  if exit <? entry then 0 else exit - entry + 1.

(** [addDuration(days)]: the new exit date. *)
Definition addDuration (entry exit : date) (days : Z) : date :=
  let base := if exit <? entry then entry else exit in
  base + days.

(** ** startOfWeekPolyfill (main.tsx, lines 33-38) *)

(** [Date.getDay()] with day 0 = 1970-01-01, a Thursday. *)
Definition getDay (d : date) : Z := (d + 4) mod 7.

Definition startOfWeekPolyfill (d : date) (weekStartsOn : Z) : date :=
  let day := getDay d in
  let diff := (if day <? weekStartsOn then 7 else 0) + day - weekStartsOn in
  d - diff.

(** ** useSchengenStore: profiles (main.tsx, lines 186-233, 262-281) *)

Record Profile := mkProfile {
  profile_id : string;
  name : string;
  trips : list Trip
}.

Record Store := mkStore {
  profiles : list Profile;
  activeProfileId : string
}.

Definition MAX_PROFILES : nat := 20.

(** [profiles.find(p => p.id === activeProfileId) || profiles[0]];
    [None] is [undefined]. *)
Definition activeProfile (st : Store) : option Profile :=
  match List.find (fun p => String.eqb (profile_id p) (activeProfileId st)) (profiles st) with
  | Some p => Some p
  | None => head (profiles st)
  end.

(** [addProfile(name)]; [newId] is the value of [crypto.randomUUID()]. *)
Definition addProfile (newId : string) (nm : string) (st : Store) : Store :=
  if (MAX_PROFILES <=? length (profiles st))%nat then st
  else mkStore (profiles st ++ [mkProfile newId nm []]) newId.

(** [removeProfile(id)]; [None] when [newProfiles[0].id] is read from an
    empty list (a TypeError). *)
Definition removeProfile (id : string) (st : Store) : option Store :=
  if (length (profiles st) <=? 1)%nat then Some st
  else
    let newProfiles := List.filter (fun p => negb (String.eqb (profile_id p) id)) (profiles st) in
    if String.eqb (activeProfileId st) id then
      match newProfiles with
      | p :: _ => Some (mkStore newProfiles (profile_id p))
      | [] => None
      end
    else Some (mkStore newProfiles (activeProfileId st)).

(** The store's [toggleDate(dateStr)]: only the active profile is edited. *)
Definition storeToggleDate (uuid : nat -> string) (st : Store) (d : date) : Store :=
  mkStore
    (map (fun p => if negb (String.eqb (profile_id p) (activeProfileId st)) then p
                   else mkProfile (profile_id p) (name p) (toggleDate uuid (trips p) d))
       (profiles st))
    (activeProfileId st).

(** ** app/page.tsx: the single-date tracker

    Here dates are [Date] objects: instants as milliseconds of local wall
    time, so [setDate(getDate() + n)] adds [n * DAY] and [toDateString()]
    is the day number [x / DAY]. *)

Definition DAY : Z := 86400000.

Definition toDateString (x : Z) : Z := x / DAY.

(** calculateDaysInWindow (page.tsx, lines 117-129). *)
Definition calculateDaysInWindow (selectedDates : list Z) (referenceDate : Z) : Z :=
  let windowStart := referenceDate - 180 * DAY in
  fold_left (fun daysUsed dt =>
    if (windowStart <=? dt) && (dt <=? referenceDate) then daysUsed + 1 else daysUsed)
    selectedDates 0.

(** The [while (currentRangeDate <= end)] loop of [handleRangeSelection]. *)
Fixpoint range_loop (current end_ : Z) (fuel : nat) : list Z :=
  match fuel with
  | O => []
  | S fuel' => if current <=? end_ then current :: range_loop (current + DAY) end_ fuel' else []
  end.

(** handleRangeSelection, second click (page.tsx, lines 81-105). *)
Definition handleRangeSelection (selectedDates : list Z) (rangeStart dt : Z) : list Z :=
  let start := if rangeStart <? dt then rangeStart else dt in
  let end_ := if rangeStart <? dt then dt else rangeStart in
  let rangeDates := range_loop start end_ (S (Z.to_nat ((end_ - start) / DAY))) in
  let existingDateStrings := map toDateString selectedDates in
  let newDates := List.filter (fun d =>
    negb (existsb (Z.eqb (toDateString d)) existingDateStrings)) rangeDates in
  selectedDates ++ newDates.

(** calculateFutureStayInfo (page.tsx, lines 247-261): [(daysUsedInWindow, availableDays)]. *)
Definition calculateFutureStayInfo (selectedDates : list Z) (futureDate : Z) : Z * Z :=
  let windowStart := futureDate - 180 * DAY in
  let daysUsedInWindow := fold_left (fun n dt =>
    if (windowStart <=? dt) && (dt <? futureDate) then n + 1 else n) selectedDates 0 in
  (daysUsedInWindow, Z.max 0 (90 - daysUsedInWindow)).

(** The loop of getMaxContinuousStay (page.tsx, lines 282-297). *)
Fixpoint max_continuous_loop (selectedDates : list Z) (checkDate : Z) (fuel : nat)
  (maxDays : Z) : Z :=
  match fuel with
  | O => maxDays
  | S fuel' =>
      if 0 <? snd (calculateFutureStayInfo selectedDates checkDate)
      then max_continuous_loop selectedDates (checkDate + DAY) fuel' (maxDays + 1)
      else maxDays
  end.

Definition getMaxContinuousStay (selectedDates : list Z) (startDate : Z) : Z :=
  max_continuous_loop selectedDates startDate 90 0.

(** The loop of calculateNextEntryDate (page.tsx, lines 135-150), from the
    last sorted date backwards. *)
Fixpoint next_entry_loop (sortedDates : list Z) (i runningTotal : Z) (fuel : nat)
  : option Z :=
  match fuel with
  | O => None
  | S fuel' =>
      if i <? 0 then None
      else
        let runningTotal' := runningTotal + 1 in
        if 90 <? runningTotal'
        then Some (nth (Z.to_nat i) sortedDates 0 + 180 * DAY)
        else next_entry_loop sortedDates (i - 1) runningTotal' fuel'
  end.

(** calculateNextEntryDate, with [daysUsed = calculateDaysInWindow()] taken
    at the instant [now]; [None] is [null]. *)
Definition calculateNextEntryDate (selectedDates : list Z) (now : Z) : option Z :=
  let daysUsed := calculateDaysInWindow selectedDates now in
  if daysUsed <=? 90 then None
  else
    let sortedDates := sort_by (fun d => d) selectedDates in
    next_entry_loop sortedDates (Z.of_nat (length sortedDates) - 1) 0
      (length sortedDates).

(** getFutureAvailableDates (page.tsx, lines 263-280): the next 365 days from
    tomorrow ([now + DAY]) on which days are available. *)
Definition getFutureAvailableDates (selectedDates : list Z) (now : Z) : list Z :=
  let startDate := now + DAY in
  List.filter (fun checkDate => 0 <? snd (calculateFutureStayInfo selectedDates checkDate))
    (map (fun i => startDate + Z.of_nat i * DAY) (seq 0 365)).

Record FutureStayInfo := mkFutureStayInfo {
  fs_entryDate : Z;
  fs_maxDays : Z;
  fs_availableDays : Z
}.

(** handleFutureDateClick (page.tsx, lines 299-310): the new [futureStayInfo],
    [None] when the click changes nothing. *)
Definition handleFutureDateClick (selectedDates : list Z) (date : Z) : option FutureStayInfo :=
  let availableDays := snd (calculateFutureStayInfo selectedDates date) in
  if 0 <? availableDays
  then Some (mkFutureStayInfo date (getMaxContinuousStay selectedDates date) availableDays)
  else None.

(** ** Scenarios of the specification (2024-01-01 is day 0) *)

Example scenario1 :
  calculateUsedDaysWithinWindow [mkTrip "a" 0 9] 9 = 10.
Proof. reflexivity. Qed.

Example scenario2 :
  dates_of (normalizeTrips [mkTrip "a" 60 64; mkTrip "b" 65 69]) = [(60, 69)].
Proof. reflexivity. Qed.

Example scenario4 :
  canStayForPeriod [] 100 191 = mkStayCheck false (Some 190) 91.
Proof. vm_compute. reflexivity. Qed.

Example scenario5 :
  getMaxSafeStayFromDate [] 100 = mkMaxStay 90 189.
Proof. vm_compute. reflexivity. Qed.

Example scenario6 :
  dates_of (toggleDate uid (toggleDate uid (toggleDate uid [] 130) 131) 130) = [(131, 131)].
Proof. vm_compute. reflexivity. Qed.

(** ** Sorting *)

Section SortFacts.
Context {A : Type} (key : A -> Z).

Lemma insert_by_perm (x : A) (l : list A) :
  Permutation (insert_by key x l) (x :: l).
Proof.
  induction l as [|y l IH]; simpl; [done|].
  destruct (key x <=? key y); [done|].
  rewrite IH. constructor.
Qed.

Lemma sort_by_perm (l : list A) : Permutation (sort_by key l) l.
Proof.
  induction l as [|x l IH]; simpl; [done|].
  rewrite insert_by_perm, IH. done.
Qed.


Lemma insert_by_sorted (x : A) (l : list A) :
  Sorted (key_le key) l -> Sorted (key_le key) (insert_by key x l).
Proof.
  induction 1 as [|y l Hs IH Hhd]; simpl; [by repeat constructor|].
  destruct (Z.leb_spec (key x) (key y)) as [Hxy|Hxy].
  - constructor; [by constructor|]. constructor. unfold key_le. lia.
  - constructor; [done|].
    destruct l as [|z l]; simpl.
    + constructor. unfold key_le. lia.
    + inversion Hhd; subst.
      destruct (key x <=? key z); constructor; unfold key_le in *; lia.
Qed.

Lemma sort_by_sorted (l : list A) : Sorted (key_le key) (sort_by key l).
Proof.
  induction l; simpl; [constructor|]. by apply insert_by_sorted.
Qed.

Lemma sort_by_id (l : list A) : Sorted (key_le key) l -> sort_by key l = l.
Proof.
  induction 1 as [|x l Hs IH Hhd]; simpl; [done|].
  rewrite IH. destruct l as [|y l]; simpl; [done|].
  inversion Hhd; subst. unfold key_le in *.
  destruct (Z.leb_spec (key x) (key y)); [done|lia].
Qed.
End SortFacts.

Lemma covered_perm (l l' : list Trip) (d : date) :
  Permutation l l' -> covered l d <-> covered l' d.
Proof.
  intros Hp. unfold covered. rewrite !Exists_exists.
  split; intros (t & Hin & Ht); exists t; split; try done.
  - by rewrite <- Hp.
  - by rewrite Hp.
Qed.

Lemma covered_cons (t : Trip) (l : list Trip) (d : date) :
  covered (t :: l) d <-> in_trip t d \/ covered l d.
Proof.
  unfold covered. split; intros H.
  - inversion H; auto.
  - destruct H; [by apply Exists_cons_hd | by apply Exists_cons_tl].
Qed.

Lemma covered_nil (d : date) : ~ covered [] d.
Proof. unfold covered. intros H. inversion H. Qed.

Lemma in_tripb_spec (t : Trip) (d : date) : in_tripb t d = true <-> in_trip t d.
Proof.
  unfold in_tripb, in_trip. rewrite andb_true_iff, !Z.leb_le. done.
Qed.

Lemma coveredb_spec (l : list Trip) (d : date) : coveredb l d = true <-> covered l d.
Proof.
  induction l as [|t l IH]; simpl.
  - split; [done|]. intros H. by apply covered_nil in H.
  - rewrite orb_true_iff, in_tripb_spec, IH, covered_cons. done.
Qed.

(** ** normalizeTrips: order, gaps and coverage *)


Lemma gap_ok_trans (a b c : Trip) : gap_ok a b -> gap_ok b c -> gap_ok a c.
Proof. unfold gap_ok. lia. Qed.

Lemma normalize_loop_head (c : Trip) (rest : list Trip) :
  exists t tl, normalize_loop c rest = t :: tl /\ entryDate t = entryDate c.
Proof.
  revert c. induction rest as [|n rest IH]; intros c; simpl.
  - by exists c, [].
  - destruct (entryDate n <=? exitDate c + 1).
    + destruct (IH (mkTrip (trip_id c) (entryDate c)
        (if exitDate c <? exitDate n then exitDate n else exitDate c)))
        as (t & tl & -> & Ht).
      by exists t, tl.
    + by exists c, (normalize_loop n rest).
Qed.

Lemma normalize_loop_sorted (c : Trip) (rest : list Trip) :
  Sorted entry_le (c :: rest) -> Sorted gap_ok (normalize_loop c rest).
Proof.
  revert c. induction rest as [|n rest IH]; intros c Hs; simpl.
  - by repeat constructor.
  - apply Sorted_inv in Hs as [Hs Hhd]. inversion Hhd as [|? ? Hcn]; subst.
    unfold entry_le, key_le in Hcn.
    destruct (Z.leb_spec (entryDate n) (exitDate c + 1)) as [Hm|Hm].
    + apply IH. apply Sorted_inv in Hs as [Hs' Hhd'].
      constructor; [done|]. destruct rest as [|r rest]; constructor.
      inversion Hhd'; subst. unfold entry_le, key_le in *. simpl. lia.
    + constructor; [by apply IH|].
      destruct (normalize_loop_head n rest) as (t & tl & -> & Ht).
      constructor. unfold gap_ok. lia.
Qed.

Lemma normalize_loop_covered (c : Trip) (rest : list Trip) (d : date) :
  Sorted entry_le (c :: rest) ->
  covered (normalize_loop c rest) d <-> covered (c :: rest) d.
Proof.
  revert c. induction rest as [|n rest IH]; intros c Hs; simpl; [reflexivity|].
  apply Sorted_inv in Hs as [Hs Hhd]. inversion Hhd as [|? ? Hcn]; subst.
  unfold entry_le, key_le in Hcn.
  destruct (Z.leb_spec (entryDate n) (exitDate c + 1)) as [Hm|Hm].
  - rewrite IH.
    + rewrite !covered_cons. unfold in_trip. simpl.
      assert (Hiff : entryDate c <= d <=
          (if exitDate c <? exitDate n then exitDate n else exitDate c) <->
        entryDate c <= d <= exitDate c \/ entryDate n <= d <= exitDate n).
      { destruct (Z.ltb_spec (exitDate c) (exitDate n));
          (split; [intros ?|intros [?|?]]); lia. }
      rewrite Hiff. tauto.
    + apply Sorted_inv in Hs as [Hs' Hhd'].
      constructor; [done|]. destruct rest as [|r rest]; constructor.
      inversion Hhd'; subst. unfold entry_le, key_le in *. simpl. lia.
  - rewrite !(covered_cons c), IH; done.
Qed.

Lemma normalize_loop_valid (c : Trip) (rest : list Trip) :
  Forall valid_trip (c :: rest) -> Forall valid_trip (normalize_loop c rest).
Proof.
  revert c. induction rest as [|n rest IH]; intros c Hv; simpl; [done|].
  inversion Hv as [|? ? Hc Hv']; subst. inversion Hv' as [|? ? Hn Hr]; subst.
  destruct (entryDate n <=? exitDate c + 1).
  - apply IH. constructor; [|done]. unfold valid_trip in *. simpl.
    destruct (Z.ltb_spec (exitDate c) (exitDate n)); lia.
  - constructor; [done|]. by apply IH.
Qed.

Lemma normalizeTrips_sorted (trips : list Trip) : normalized (normalizeTrips trips).
Proof.
  unfold normalizeTrips, normalized.
  pose proof (sort_by_sorted entryDate trips) as Hs.
  destruct (sort_by entryDate trips); [constructor|].
  by apply normalize_loop_sorted.
Qed.

Lemma normalizeTrips_covered (trips : list Trip) (d : date) :
  covered (normalizeTrips trips) d <-> covered trips d.
Proof.
  unfold normalizeTrips.
  rewrite <- (covered_perm _ _ d (sort_by_perm entryDate trips)).
  pose proof (sort_by_sorted entryDate trips) as Hs.
  destruct (sort_by entryDate trips); [done|].
  by apply normalize_loop_covered.
Qed.

Lemma normalizeTrips_valid (trips : list Trip) :
  Forall valid_trip trips -> Forall valid_trip (normalizeTrips trips).
Proof.
  intros Hv. unfold normalizeTrips.
  assert (Hv' : Forall valid_trip (sort_by entryDate trips)).
  { eapply Permutation_Forall; [|exact Hv]. symmetry. apply sort_by_perm. }
  destruct (sort_by entryDate trips); [constructor|].
  by apply normalize_loop_valid.
Qed.

Lemma normalized_strongly (trips : list Trip) :
  normalized trips -> StronglySorted gap_ok trips.
Proof.
  intros H. apply Sorted_StronglySorted; [|done].
  intros a b c. apply gap_ok_trans.
Qed.

(** ** calculateUsedDaysWithinWindow as a count of days *)

Lemma window_spec (referenceDate d : date) :
  In d (window referenceDate) <-> referenceDate - 179 <= d <= referenceDate.
Proof.
  unfold window. rewrite in_map_iff. split.
  - intros (i & <- & Hi). apply in_seq in Hi. lia.
  - intros Hd. exists (Z.to_nat (d - (referenceDate - 179))).
    rewrite in_seq. lia.
Qed.

Lemma window_length (referenceDate : date) : length (window referenceDate) = 180%nat.
Proof. unfold window. by rewrite length_map, length_seq. Qed.

Lemma window_NoDup (referenceDate : date) : NoDup (window referenceDate).
Proof.
  apply NoDup_ListNoDup.
  unfold window. apply NoDup_map_NoDup_ForallPairs; [|apply seq_NoDup].
  intros i j _ _ H. lia.
Qed.

Lemma count_trip_days (t : Trip) (lo : date) (n : nat) :
  count_days (in_tripb t) (map (fun i => lo + Z.of_nat i) (seq 0 n)) =
  Z.max 0 (Z.min (exitDate t) (lo + Z.of_nat n - 1) - Z.max (entryDate t) lo + 1).
Proof.
  unfold count_days. induction n as [|n IH].
  - simpl. lia.
  - rewrite seq_S, map_app, List.filter_app, List.length_app, Nat2Z.inj_add, IH. simpl.
    destruct (in_tripb t (lo + Z.of_nat n)) eqn:Hb; simpl.
    + apply in_tripb_spec in Hb. unfold in_trip in Hb. lia.
    + assert (~ in_trip t (lo + Z.of_nat n)) as Hn
        by (rewrite <- in_tripb_spec; congruence).
      unfold in_trip in Hn. lia.
Qed.

Lemma overlap_days_count (referenceDate : date) (t : Trip) :
  overlap_days (referenceDate - 179) referenceDate t =
  count_days (in_tripb t) (window referenceDate).
Proof.
  unfold window. rewrite count_trip_days. unfold overlap_days.
  destruct (Z.ltb_spec (entryDate t) (referenceDate - 179));
  destruct (Z.ltb_spec referenceDate (exitDate t));
  match goal with |- context [negb (?a <? ?b)] => destruct (Z.ltb_spec a b) end;
  simpl; lia.
Qed.

Lemma fold_left_add {A} (f : A -> Z) (l : list A) (acc : Z) :
  fold_left (fun s x => s + f x) l acc = acc + fold_right Z.add 0 (map f l).
Proof.
  revert acc. induction l as [|x l IH]; intros acc; simpl; [lia|].
  rewrite IH. lia.
Qed.

Lemma usedDays_sum (trips : list Trip) (referenceDate : date) :
  calculateUsedDaysWithinWindow trips referenceDate =
  fold_right Z.add 0
    (map (fun t => count_days (in_tripb t) (window referenceDate)) trips).
Proof.
  unfold calculateUsedDaysWithinWindow. rewrite fold_left_add.
  rewrite Z.add_0_l. f_equal. apply map_ext. intros t. apply overlap_days_count.
Qed.

Lemma count_days_or (p q : date -> bool) (days : list date) :
  (forall d, p d = true -> q d = true -> False) ->
  count_days (fun d => p d || q d) days = count_days p days + count_days q days.
Proof.
  intros Hdis. unfold count_days. rewrite <- Nat2Z.inj_add. f_equal.
  induction days as [|x days IH]; simpl; [done|].
  destruct (p x) eqn:Hp, (q x) eqn:Hq; simpl; rewrite ?IH; try lia.
  exfalso. by apply (Hdis x).
Qed.

Lemma count_days_mono (p q : date -> bool) (days : list date) :
  (forall d, p d = true -> q d = true) -> count_days p days <= count_days q days.
Proof.
  intros Hpq. unfold count_days. apply Nat2Z.inj_le.
  induction days as [|x days IH]; simpl; [done|].
  destruct (p x) eqn:Hp; [rewrite (Hpq x Hp); simpl; lia|].
  destruct (q x); simpl; lia.
Qed.

Lemma count_days_bounds (p : date -> bool) (days : list date) :
  0 <= count_days p days <= Z.of_nat (length days).
Proof.
  unfold count_days. split; [lia|]. apply Nat2Z.inj_le.
  induction days as [|x days IH]; simpl; [done|].
  destruct (p x); simpl; lia.
Qed.

(** On a list with pairwise gaps, each covered day is counted once. *)
Lemma usedDays_normalized (trips : list Trip) (referenceDate : date) :
  normalized trips ->
  calculateUsedDaysWithinWindow trips referenceDate =
  count_days (coveredb trips) (window referenceDate).
Proof.
  intros Hn. apply normalized_strongly in Hn.
  rewrite usedDays_sum.
  induction Hn as [|t l Hs IH Hall]; simpl.
  - unfold count_days, coveredb. simpl.
    induction (window referenceDate) as [|x w IHw]; simpl; lia.
  - rewrite IH. unfold coveredb at 2. simpl.
    rewrite (count_days_or (in_tripb t) (coveredb l)); [done|].
    intros d Ht Hl. apply in_tripb_spec in Ht. apply coveredb_spec in Hl.
    unfold covered in Hl. rewrite Exists_exists in Hl.
    destruct Hl as (u & Hu & Hud). rewrite Forall_forall in Hall.
    specialize (Hall u Hu). unfold gap_ok, in_trip in *. lia.
Qed.

(** ** canStayForPeriod: the day scan *)

Lemma scan_days_some (combined : list Trip) (d : date) (n : nat) (v u : Z) :
  scan_days combined d n = Some (v, u) ->
  d <= v < d + Z.of_nat n /\ u = calculateUsedDaysWithinWindow combined v /\ 90 < u /\
  forall d', d <= d' < v -> calculateUsedDaysWithinWindow combined d' <= 90.
Proof.
  revert d. induction n as [|n IH]; intros d; simpl; [done|].
  destruct (Z.ltb_spec 90 (calculateUsedDaysWithinWindow combined d)) as [Hgt|Hle].
  - intros [= <- <-]. repeat split; lia.
  - intros Hs. destruct (IH (d + 1) Hs) as (Hv & Hu & Hgt & Hbefore).
    repeat split; try lia. intros d' Hd'.
    destruct (Z.eq_dec d' d) as [->|Hne]; [done|]. apply Hbefore. lia.
Qed.

Lemma scan_days_none (combined : list Trip) (d : date) (n : nat) :
  scan_days combined d n = None <->
  forall d', d <= d' < d + Z.of_nat n -> calculateUsedDaysWithinWindow combined d' <= 90.
Proof.
  revert d. induction n as [|n IH]; intros d; simpl.
  - split; [intros _ d' Hd'; lia|done].
  - destruct (Z.ltb_spec 90 (calculateUsedDaysWithinWindow combined d)) as [Hgt|Hle].
    + split; [done|]. intros H. specialize (H d). lia.
    + rewrite IH. split; intros H d' Hd'.
      * destruct (Z.eq_dec d' d) as [->|Hne]; [done|]. apply H. lia.
      * apply H. lia.
Qed.

Lemma canStay_refused (trips : list Trip) (E X : date) :
  isAllowed (canStayForPeriod trips E X) = false ->
  exists v,
    violationDate (canStayForPeriod trips E X) = Some v /\ E <= v <= X /\
    usedOnExit (canStayForPeriod trips E X) =
      calculateUsedDaysWithinWindow (normalizeTrips (trips ++ [mkTrip "temp" E X])) v /\
    90 < usedOnExit (canStayForPeriod trips E X) /\
    forall d, E <= d < v ->
      calculateUsedDaysWithinWindow (normalizeTrips (trips ++ [mkTrip "temp" E X])) d <= 90.
Proof.
  unfold canStayForPeriod.
  destruct (scan_days _ E _) as [[v u]|] eqn:Hs; simpl; [|done].
  intros _. apply scan_days_some in Hs as (Hv & Hu & Hgt & Hbefore).
  exists v. repeat split; try done; try lia.
  all: rewrite <- ?Hu; try done.
Qed.

Lemma canStay_allowed_iff (trips : list Trip) (E X : date) :
  E <= X ->
  isAllowed (canStayForPeriod trips E X) = true <->
  forall d, E <= d <= X ->
    calculateUsedDaysWithinWindow (normalizeTrips (trips ++ [mkTrip "temp" E X])) d <= 90.
Proof.
  intros Hle. unfold canStayForPeriod.
  destruct (scan_days _ E _) as [[v u]|] eqn:Hs; simpl.
  - split; [done|]. intros H.
    apply scan_days_some in Hs as (Hv & Hu & Hgt & _). subst u.
    specialize (H v). lia.
  - split; [|done]. intros _ d Hd. apply scan_days_none with (d' := d) in Hs; [done|lia].
Qed.

Lemma canStay_allowed_fields (trips : list Trip) (E X : date) :
  isAllowed (canStayForPeriod trips E X) = true ->
  violationDate (canStayForPeriod trips E X) = None /\
  usedOnExit (canStayForPeriod trips E X) =
    calculateUsedDaysWithinWindow (normalizeTrips (trips ++ [mkTrip "temp" E X])) X.
Proof.
  unfold canStayForPeriod.
  destruct (scan_days _ E _) as [[v u]|]; simpl; done.
Qed.

(** Usage of the combined set at a day only grows with the candidate trip. *)
Lemma covered_app (l l' : list Trip) (d : date) :
  covered (l ++ l') d <-> covered l d \/ covered l' d.
Proof. unfold covered. apply Exists_app. Qed.

Lemma usedDays_combined_mono (trips : list Trip) (E X X' : date) (d : date) :
  X <= X' ->
  calculateUsedDaysWithinWindow (normalizeTrips (trips ++ [mkTrip "temp" E X])) d <=
  calculateUsedDaysWithinWindow (normalizeTrips (trips ++ [mkTrip "temp" E X'])) d.
Proof.
  intros HX. rewrite !usedDays_normalized by apply normalizeTrips_sorted.
  apply count_days_mono. intros x. rewrite !coveredb_spec, !normalizeTrips_covered,
    !covered_app, !covered_cons. unfold in_trip. simpl.
  intros [H|[H|H]]; [by left| |by apply covered_nil in H].
  right. left. lia.
Qed.

(** ** getMaxSafeStayFromDate: the search loop *)

Lemma max_stay_loop_spec (trips : list Trip) (E : date) (fuel : nat) (i s : Z) :
  s = i - 1 -> 0 <= s ->
  (s = 0 \/ isAllowed (canStayForPeriod trips E (E + (s - 1))) = true) ->
  let L := max_stay_loop trips E i fuel s in
  s <= L <= s + Z.of_nat fuel /\
  (L = 0 \/ isAllowed (canStayForPeriod trips E (E + (L - 1))) = true) /\
  (L < s + Z.of_nat fuel -> isAllowed (canStayForPeriod trips E (E + L)) = false).
Proof.
  revert i s. induction fuel as [|fuel IH]; intros i s Hs Hpos Hprev; simpl.
  - split; [lia|]. split; [done|lia].
  - destruct (isAllowed (canStayForPeriod trips E (E + (i - 1)))) eqn:Ha.
    + destruct (IH (i + 1) i) as (Hb & Hok & Hfail); [lia|lia| |].
      * right. by replace (i - 1) with (i - 1) by lia.
      * split; [lia|]. split; [done|]. intros HL. apply Hfail. lia.
    + split; [lia|]. split; [done|].
      intros _. by rewrite Hs.
Qed.

(** ** Presence sets *)

Lemma of_nat_to_nat (x : Z) : Z.of_nat (Z.to_nat x) = Z.max 0 x.
Proof.
  destruct (Z.leb_spec 0 x); [rewrite Z2Nat.id; lia|].
  destruct x; [done|lia|]. rewrite Z2Nat.inj_neg. lia.
Qed.

Lemma add_days_spec (dateSet : gset Z) (start : date) (n : nat) (d : date) :
  d ∈ add_days dateSet start n <-> d ∈ dateSet \/ start <= d < start + Z.of_nat n.
Proof.
  revert dateSet start. induction n as [|n IH]; intros dateSet start; simpl.
  - split; [by left|]. intros [H|H]; [done|lia].
  - rewrite IH, elem_of_union, elem_of_singleton. split.
    + intros [[H|H]|H]; [by left|right; lia|right; lia].
    + intros [H|H]; [by left; left|].
      destruct (Z.eq_dec d start); [by left; right|right; lia].
Qed.

Lemma add_trip_days_spec (dateSet : gset Z) (t : Trip) (d : date) :
  d ∈ add_trip_days dateSet t <-> d ∈ dateSet \/ in_trip t d.
Proof.
  unfold add_trip_days, in_trip. rewrite add_days_spec, of_nat_to_nat.
  split; intros [H|H]; [by left|right; lia|by left|right; lia].
Qed.

Lemma expand_spec (trips : list Trip) (d : date) : d ∈ expand trips <-> covered trips d.
Proof.
  unfold expand.
  assert (Hgen : forall (s : gset Z) l,
    d ∈ fold_left add_trip_days l s <-> d ∈ s \/ covered l d).
  { intros s l. revert s. induction l as [|t l IH]; intros s; simpl.
    - split; [by left|]. intros [H|H]; [done|by apply covered_nil in H].
    - rewrite IH, add_trip_days_spec, covered_cons. tauto. }
  rewrite Hgen. split; [intros [H|H]; [set_solver|done]|by right].
Qed.

Lemma sorted_le_NoDup_lt (l : list Z) :
  Sorted (key_le (fun d => d)) l -> List.NoDup l -> Sorted Z.lt l.
Proof.
  induction 1 as [|x l Hs IH Hhd]; intros Hnd; constructor.
  - apply IH. by inversion Hnd.
  - inversion Hhd as [|y l' Hxy]; subst; constructor.
    inversion Hnd as [|? ? Hnin]; subst. unfold key_le in Hxy.
    destruct (Z.eq_dec x y) as [->|]; [|lia].
    exfalso. apply Hnin. by left.
Qed.

Section Collapse.
Variable uuid : nat -> string.

Lemma rle_loop_head (k : nat) (s p : date) (rest : list date) :
  exists t tl, rle_loop uuid k s p rest = t :: tl /\ entryDate t = s.
Proof.
  revert k p. induction rest as [|c rest IH]; intros k p; simpl.
  - by eexists _, [].
  - destruct (c - p =? 1); [apply IH|]. by eexists _, _.
Qed.

Lemma rle_loop_props (k : nat) (s p : date) (rest : list date) :
  s <= p -> Sorted Z.lt (p :: rest) ->
  normalized (rle_loop uuid k s p rest) /\
  Forall valid_trip (rle_loop uuid k s p rest) /\
  (forall d, covered (rle_loop uuid k s p rest) d <-> s <= d <= p \/ In d rest).
Proof.
  revert k s p. induction rest as [|c rest IH]; intros k s p Hsp Hs; simpl.
  - split; [by repeat constructor|]. split; [by repeat constructor|].
    intros d. rewrite covered_cons. unfold in_trip. simpl.
    split; [intros [H|H]; [by left|by apply covered_nil in H]|].
    intros [H|[]]. by left.
  - apply Sorted_inv in Hs as [Hs Hhd]. inversion Hhd as [|? ? Hpc]; subst.
    destruct (Z.eqb_spec (c - p) 1) as [Hadj|Hgap].
    + destruct (IH k s c) as (Hn & Hv & Hc); [lia|done|].
      split; [done|]. split; [done|]. intros d. rewrite Hc.
      split; [intros [H|H]|intros [H|[H|H]]].
      * destruct (Z.eq_dec d c) as [->|]; [by right; left|left; lia].
      * by right; right.
      * left; lia.
      * subst; left; lia.
      * by right.
    + destruct (IH (S k) c c) as (Hn & Hv & Hc); [lia|done|].
      split; [|split].
      * constructor; [done|].
        destruct (rle_loop_head (S k) c c rest) as (t & tl & Heq & Ht).
        rewrite Heq. constructor. unfold gap_ok. simpl. lia.
      * by constructor.
      * intros d. rewrite covered_cons, Hc. unfold in_trip. simpl.
        split; [intros [H|[H|H]]|intros [H|[H|H]]].
        -- by left.
        -- right; left; lia.
        -- by right; right.
        -- by left.
        -- subst; right; left; lia.
        -- by right; right.
Qed.

Lemma updateTripsFromSet_props (dateSet : gset Z) :
  normalized (updateTripsFromSet uuid dateSet) /\
  Forall valid_trip (updateTripsFromSet uuid dateSet) /\
  (forall d, covered (updateTripsFromSet uuid dateSet) d <-> d ∈ dateSet).
Proof.
  unfold updateTripsFromSet.
  pose proof (sort_by_perm (fun d => d) (elements dateSet)) as Hp.
  pose proof (sort_by_sorted (fun d => d) (elements dateSet)) as Hs.
  assert (Hnd : List.NoDup (sort_by (fun d => d) (elements dateSet))).
  { eapply Permutation_NoDup; [symmetry; exact Hp|].
    apply NoDup_ListNoDup, NoDup_elements. }
  assert (Hin : forall d, In d (sort_by (fun d => d) (elements dateSet)) <-> d ∈ dateSet).
  { intros d. rewrite <- elem_of_elements, list_elem_of_In. split; intros H.
    - by apply (Permutation_in _ Hp).
    - by apply (Permutation_in _ (Permutation_sym Hp)). }
  pose proof (sorted_le_NoDup_lt _ Hs Hnd) as Hlt.
  destruct (sort_by (fun d => d) (elements dateSet)) as [|d0 rest].
  - split; [constructor|]. split; [constructor|].
    intros d. rewrite <- Hin. split; [by intros H; apply covered_nil in H|done].
  - destruct (rle_loop_props 0 d0 d0 rest) as (Hn & Hv & Hc); [lia|done|].
    split; [done|]. split; [done|]. intros d. rewrite Hc, <- Hin. simpl.
    split; [intros [H|H]; [left; lia|by right]|intros [H|H]; [left; lia|by right]].
Qed.
End Collapse.

(** ** Uniqueness of the normalized form of a set of days *)

Lemma covered_after (a : Trip) (l : list Trip) (d : date) :
  StronglySorted gap_ok (a :: l) -> covered l d -> exitDate a + 2 <= d.
Proof.
  intros Hs Hc. apply StronglySorted_inv in Hs as [_ Hall].
  unfold covered in Hc. rewrite Exists_exists in Hc.
  destruct Hc as (c & Hc & Hcd). rewrite Forall_forall in Hall.
  specialize (Hall c Hc). unfold gap_ok, in_trip in *. lia.
Qed.

Lemma covered_after_entry (a : Trip) (l : list Trip) (d : date) :
  StronglySorted gap_ok (a :: l) -> covered l d -> entryDate a <= d.
Proof.
  intros Hs Hc. apply StronglySorted_inv in Hs as [_ Hall].
  unfold covered in Hc. rewrite Exists_exists in Hc.
  destruct Hc as (c & Hc & Hcd). rewrite Forall_forall in Hall.
  specialize (Hall c Hc). unfold gap_ok, in_trip in *. lia.
Qed.

Lemma head_entry_le (a b : Trip) (l1 l2 : list Trip) :
  valid_trip a -> StronglySorted gap_ok (b :: l2) ->
  (forall d, covered (a :: l1) d -> covered (b :: l2) d) ->
  entryDate b <= entryDate a.
Proof.
  intros Ha Hs Hsub.
  destruct (proj1 (covered_cons b l2 (entryDate a)) (Hsub (entryDate a) ltac:(
    apply covered_cons; left; unfold in_trip, valid_trip in *; lia))) as [H|H].
  - unfold in_trip in H. lia.
  - eapply covered_after_entry; eauto.
Qed.

Lemma head_exit_le (a b : Trip) (l1 l2 : list Trip) :
  valid_trip a -> StronglySorted gap_ok (a :: l1) -> entryDate a = entryDate b ->
  (forall d, covered (b :: l2) d -> covered (a :: l1) d) ->
  exitDate b <= exitDate a.
Proof.
  intros Ha Hs He Hsub.
  destruct (Z.le_gt_cases (exitDate b) (exitDate a)) as [|Hlt]; [done|exfalso].
  assert (Hc : covered (a :: l1) (exitDate a + 1)).
  { apply Hsub, covered_cons. left. unfold in_trip, valid_trip in *. lia. }
  apply covered_cons in Hc as [H|H].
  - unfold in_trip in H. lia.
  - pose proof (covered_after _ _ _ Hs H). lia.
Qed.

Lemma normalized_unique (l1 l2 : list Trip) :
  normalized l1 -> normalized l2 -> Forall valid_trip l1 -> Forall valid_trip l2 ->
  (forall d, covered l1 d <-> covered l2 d) ->
  dates_of l1 = dates_of l2.
Proof.
  intros H1 H2. apply normalized_strongly in H1, H2. revert l2 H2.
  induction l1 as [|a l1 IH]; intros l2 H2 Hv1 Hv2 Hc;
    destruct l2 as [|b l2]; simpl; try done.
  - exfalso. inversion Hv2 as [|? ? Hb]; subst.
    apply (covered_nil (entryDate b)), Hc, covered_cons. left.
    unfold in_trip, valid_trip in *. lia.
  - exfalso. inversion Hv1 as [|? ? Ha]; subst.
    apply (covered_nil (entryDate a)), Hc, covered_cons. left.
    unfold in_trip, valid_trip in *. lia.
  - inversion Hv1 as [|? ? Ha Hv1']; subst. inversion Hv2 as [|? ? Hb Hv2']; subst.
    assert (He : entryDate a = entryDate b).
    { pose proof (head_entry_le a b l1 l2 Ha H2 (fun d => proj1 (Hc d))).
      pose proof (head_entry_le b a l2 l1 Hb H1 (fun d => proj2 (Hc d))). lia. }
    assert (Hx : exitDate a = exitDate b).
    { pose proof (head_exit_le a b l1 l2 Ha H1 He (fun d => proj2 (Hc d))).
      pose proof (head_exit_le b a l2 l1 Hb H2 (eq_sym He) (fun d => proj1 (Hc d))).
      lia. }
    rewrite He, Hx. f_equal.
    apply IH; [exact (proj1 (StronglySorted_inv H1))|exact (proj1 (StronglySorted_inv H2))|done|done|].
    intros d. split; intros Hd.
    + pose proof (covered_after _ _ _ H1 Hd).
      assert (Hd' : covered (b :: l2) d) by (apply Hc, covered_cons; by right).
      apply covered_cons in Hd' as [Hin|Hin]; [|done].
      unfold in_trip in Hin. lia.
    + pose proof (covered_after _ _ _ H2 Hd).
      assert (Hd' : covered (a :: l1) d) by (apply Hc, covered_cons; by right).
      apply covered_cons in Hd' as [Hin|Hin]; [|done].
      unfold in_trip in Hin. lia.
Qed.

(** ** normalizeTrips leaves a normalized list unchanged *)

Lemma normalized_entry_sorted (trips : list Trip) :
  normalized trips -> Sorted entry_le trips.
Proof.
  induction 1 as [|a l Hs IH Hhd]; constructor; [done|].
  inversion Hhd; subst; constructor. unfold gap_ok, entry_le, key_le in *. lia.
Qed.

Lemma normalize_loop_id (c : Trip) (rest : list Trip) :
  normalized (c :: rest) -> normalize_loop c rest = c :: rest.
Proof.
  revert c. induction rest as [|n rest IH]; intros c Hs; simpl; [done|].
  apply Sorted_inv in Hs as [Hs Hhd]. inversion Hhd as [|? ? Hcn]; subst.
  unfold gap_ok in Hcn.
  destruct (Z.leb_spec (entryDate n) (exitDate c + 1)); [lia|].
  by rewrite IH.
Qed.

Lemma normalizeTrips_id (trips : list Trip) :
  normalized trips -> normalizeTrips trips = trips.
Proof.
  intros Hn. unfold normalizeTrips.
  rewrite (sort_by_id entryDate trips (normalized_entry_sorted _ Hn)).
  destruct trips as [|c rest]; [done|]. by apply normalize_loop_id.
Qed.

(** ** Pairwise disjointness of normalized lists *)


Lemma strongly_sorted_lookup (trips : list Trip) (i j : nat) (a b : Trip) :
  StronglySorted gap_ok trips -> (i < j)%nat -> trips !! i = Some a -> trips !! j = Some b ->
  gap_ok a b.
Proof.
  intros Hs. revert i j. induction Hs as [|c l Hs IH Hall]; intros i j Hij Ha Hb; [done|].
  destruct i as [|i], j as [|j]; simpl in *; try lia.
  - injection Ha as <-. rewrite Forall_forall in Hall. apply Hall.
    by eapply list_elem_of_lookup_2.
  - apply (IH i j); [lia|done|done].
Qed.

Lemma normalized_pairwise_disjoint (trips : list Trip) :
  normalized trips -> pairwise_disjoint trips.
Proof.
  intros Hn i j a b Hij Ha Hb d [Had Hbd].
  pose proof (strongly_sorted_lookup trips i j a b (normalized_strongly _ Hn) Hij Ha Hb).
  unfold gap_ok, in_trip in *. lia.
Qed.




Lemma updateTripsFromSet_ok (uuid : nat -> string) (dateSet : gset Z) :
  edit_output_ok (updateTripsFromSet uuid dateSet).
Proof.
  destruct (updateTripsFromSet_props uuid dateSet) as (Hn & Hv & _).
  split; [done|]. split; [by apply normalized_pairwise_disjoint|].
  split; [done|]. split; [by apply normalizeTrips_id|].
  intros D. by apply usedDays_normalized.
Qed.

(** * The claims *)

(** C1: [calculateUsedDaysWithinWindow trips D] works over the window
    [D - 179, D], which has exactly 180 days, both ends included; it is
    the sum over the trips of the number of window days inside each trip
    (the inclusive size of the intersection, 0 for a disjoint trip). *)
Theorem usedDays_window_sum (trips : list Trip) (referenceDate : date) :
  length (window referenceDate) = 180%nat /\ NoDup (window referenceDate) /\
  (forall d, In d (window referenceDate) <-> referenceDate - 179 <= d <= referenceDate) /\
  calculateUsedDaysWithinWindow trips referenceDate =
  fold_right Z.add 0
    (map (fun t => count_days (in_tripb t) (window referenceDate)) trips).
Proof.
  split; [apply window_length|]. split; [apply window_NoDup|].
  split; [apply window_spec|]. apply usedDays_sum.
Qed.

(** C2: for [E <= X], [canStayForPeriod trips E X] scans the days [E..X]
    of the normalized combined trips in order: a refusal names the first
    day whose usage exceeds 90; otherwise the stay is allowed, with no
    violation date and [usedOnExit] the usage at [X], at most 90. *)
Theorem canStayForPeriod_scan (trips : list Trip) (E X : date) (Hle : E <= X) :
  (isAllowed (canStayForPeriod trips E X) = false ->
   exists v, violationDate (canStayForPeriod trips E X) = Some v /\ E <= v <= X /\
     90 < calculateUsedDaysWithinWindow (combinedTrips trips E X) v /\
     forall d, E <= d < v -> calculateUsedDaysWithinWindow (combinedTrips trips E X) d <= 90) /\
  (isAllowed (canStayForPeriod trips E X) = true ->
   violationDate (canStayForPeriod trips E X) = None /\
   usedOnExit (canStayForPeriod trips E X) =
     calculateUsedDaysWithinWindow (combinedTrips trips E X) X /\
   usedOnExit (canStayForPeriod trips E X) <= 90) /\
  (isAllowed (canStayForPeriod trips E X) = true <->
   forall d, E <= d <= X -> calculateUsedDaysWithinWindow (combinedTrips trips E X) d <= 90).
Proof.
  unfold combinedTrips. split; [|split].
  - intros Hf. destruct (canStay_refused trips E X Hf) as (v & Hv & Hr & Hu & Hgt & Hb).
    exists v. split; [done|]. split; [done|]. split; [lia|done].
  - intros Ht. destruct (canStay_allowed_fields trips E X Ht) as [Hn Hu].
    split; [done|]. split; [done|]. rewrite Hu.
    apply (proj1 (canStay_allowed_iff trips E X Hle) Ht). lia.
  - by apply canStay_allowed_iff.
Qed.

Lemma canStayForPeriod_scan_witness :
  100 <= 191 /\ isAllowed (canStayForPeriod [] 100 191) = false /\
  exists v, violationDate (canStayForPeriod [] 100 191) = Some v /\ 100 <= v <= 191.
Proof.
  assert (Hf : isAllowed (canStayForPeriod [] 100 191) = false) by (vm_compute; reflexivity).
  split; [lia|]. split; [exact Hf|].
  destruct (proj1 (canStayForPeriod_scan [] 100 191 ltac:(lia)) Hf) as (v & Hv & Hr & _).
  exists v. split; [exact Hv|exact Hr].
Defined.

(** C3: the output of [normalizeTrips] is sorted by entry date with every
    gap between consecutive trips at least 2 days, pairwise disjoint, and
    covers the same days as the input; two trips with a zero-day gap are
    merged into one, two trips with one or more free days between them are
    kept apart (in either input order). *)
Theorem normalizeTrips_invariant (trips : list Trip) :
  normalized (normalizeTrips trips) /\
  pairwise_disjoint (normalizeTrips trips) /\
  (forall d, covered (normalizeTrips trips) d <-> covered trips d) /\
  (forall a b, valid_trip a -> valid_trip b -> exitDate a + 1 = entryDate b ->
     normalizeTrips [a; b] = [mkTrip (trip_id a) (entryDate a) (exitDate b)] /\
     normalizeTrips [b; a] = [mkTrip (trip_id a) (entryDate a) (exitDate b)]) /\
  (forall a b, valid_trip a -> valid_trip b -> exitDate a + 2 <= entryDate b ->
     normalizeTrips [a; b] = [a; b] /\ normalizeTrips [b; a] = [a; b]).
Proof.
  split; [apply normalizeTrips_sorted|].
  split; [apply normalized_pairwise_disjoint, normalizeTrips_sorted|].
  split; [apply normalizeTrips_covered|].
  split; intros a b Ha Hb Hab; unfold valid_trip in *;
    split; unfold normalizeTrips; simpl; cmp_cases; simpl; cmp_cases;
    try lia; reflexivity.
Qed.

(** C4: for a fixed history and entry date, once a stay of [k] extra days
    is refused, every longer stay is refused too. *)
Theorem feasibility_monotone (trips : list Trip) (E : date) (k m : Z) :
  0 <= k <= m ->
  isAllowed (canStayForPeriod trips E (E + k)) = false ->
  isAllowed (canStayForPeriod trips E (E + m)) = false.
Proof.
  intros Hkm Hk.
  destruct (canStay_refused trips E (E + k) Hk) as (v & _ & Hv & Hu & Hgt & _).
  destruct (isAllowed (canStayForPeriod trips E (E + m))) eqn:Hm; [|done].
  exfalso.
  pose proof (proj1 (canStay_allowed_iff trips E (E + m) ltac:(lia)) Hm v ltac:(lia)).
  pose proof (usedDays_combined_mono trips E (E + k) (E + m) v ltac:(lia)).
  lia.
Qed.

Lemma feasibility_monotone_witness :
  0 <= 90 <= 120 /\ isAllowed (canStayForPeriod [] 0 (0 + 90)) = false /\
  isAllowed (canStayForPeriod [] 0 (0 + 120)) = false.
Proof.
  assert (Hk : isAllowed (canStayForPeriod [] 0 (0 + 90)) = false)
    by (vm_compute; reflexivity).
  split; [lia|]. split; [exact Hk|].
  exact (feasibility_monotone [] 0 90 120 ltac:(lia) Hk).
Defined.

(** C5: [L = maxDays (getMaxSafeStayFromDate trips E)] lies in [0, 90];
    the stay [E .. E + L - 1] is allowed unless [L = 0]; and when
    [L < 90] the stay [E .. E + L] is refused. *)
Theorem maxSafeStay_boundary (trips : list Trip) (E : date) :
  0 <= maxDays (getMaxSafeStayFromDate trips E) <= 90 /\
  (maxDays (getMaxSafeStayFromDate trips E) = 0 \/
   isAllowed (canStayForPeriod trips E (E + maxDays (getMaxSafeStayFromDate trips E) - 1))
     = true) /\
  (maxDays (getMaxSafeStayFromDate trips E) < 90 ->
   isAllowed (canStayForPeriod trips E (E + maxDays (getMaxSafeStayFromDate trips E)))
     = false).
Proof.
  unfold getMaxSafeStayFromDate. cbn [maxDays].
  destruct (max_stay_loop_spec trips E 90 1 0 ltac:(lia) ltac:(lia) (or_introl eq_refl))
    as (Hb & Hok & Hfail).
  change (Z.of_nat 90) with 90 in Hb, Hfail.
  split; [lia|]. split.
  - destruct Hok as [Hz|Hok]; [by left|right].
    by replace (E + max_stay_loop trips E 1 90 0 - 1)
      with (E + (max_stay_loop trips E 1 90 0 - 1)) by lia.
  - intros HL. apply Hfail. lia.
Qed.

(** C6: collapsing the presence set of a list of valid trips gives the
    same entry and exit dates as normalizing the list. *)
Theorem collapse_expand_normalize (uuid : nat -> string) (trips : list Trip) :
  Forall valid_trip trips ->
  dates_of (updateTripsFromSet uuid (expand trips)) = dates_of (normalizeTrips trips).
Proof.
  intros Hv.
  destruct (updateTripsFromSet_props uuid (expand trips)) as (Hn & Hv' & Hc).
  apply normalized_unique; [done|apply normalizeTrips_sorted|done|
    by apply normalizeTrips_valid|].
  intros d. rewrite Hc, expand_spec, normalizeTrips_covered. done.
Qed.

Lemma collapse_expand_normalize_witness :
  Forall valid_trip [mkTrip "a" 0 4; mkTrip "b" 5 9; mkTrip "c" 2 3; mkTrip "d" 20 21] /\
  dates_of (updateTripsFromSet uid
    (expand [mkTrip "a" 0 4; mkTrip "b" 5 9; mkTrip "c" 2 3; mkTrip "d" 20 21])) =
  dates_of (normalizeTrips [mkTrip "a" 0 4; mkTrip "b" 5 9; mkTrip "c" 2 3; mkTrip "d" 20 21]).
Proof.
  assert (Hv : Forall valid_trip
    [mkTrip "a" 0 4; mkTrip "b" 5 9; mkTrip "c" 2 3; mkTrip "d" 20 21])
    by (repeat constructor; unfold valid_trip; simpl; lia).
  split; [exact Hv|]. exact (collapse_expand_normalize uid _ Hv).
Defined.

(** C7 (as stated, refuted): for a list of valid but overlapping trips
    [calculateUsedDaysWithinWindow] counts shared days twice and can exceed
    180: the same 180-day trip recorded twice gives 360. *)
Lemma usedDays_bound_fails_overlapping :
  ~ (forall (trips : list Trip) (referenceDate : date), Forall valid_trip trips ->
       0 <= calculateUsedDaysWithinWindow trips referenceDate <= 180).
Proof.
  intros H.
  assert (Hv : Forall valid_trip [mkTrip "a" 0 179; mkTrip "b" 0 179])
    by (repeat constructor; unfold valid_trip; simpl; lia).
  assert (E360 : calculateUsedDaysWithinWindow
    [mkTrip "a" 0 179; mkTrip "b" 0 179] 179 = 360) by (vm_compute; reflexivity).
  specialize (H _ 179 Hv). lia.
Qed.

(** C7 (amended): on a trip list satisfying the NormalizedIntervalSet
    invariant (such as any output of [normalizeTrips] or of an edit),
    [calculateUsedDaysWithinWindow] lies in [0, 180]. *)
Theorem usedDays_bounds_normalized (trips : list Trip) (referenceDate : date) :
  normalized trips -> 0 <= calculateUsedDaysWithinWindow trips referenceDate <= 180.
Proof.
  intros Hn. rewrite usedDays_normalized by done.
  pose proof (count_days_bounds (coveredb trips) (window referenceDate)) as Hb.
  rewrite window_length in Hb. lia.
Qed.

Lemma usedDays_bounds_normalized_witness :
  normalized (normalizeTrips [mkTrip "a" 0 179; mkTrip "b" 0 179]) /\
  0 <= calculateUsedDaysWithinWindow
         (normalizeTrips [mkTrip "a" 0 179; mkTrip "b" 0 179]) 179 <= 180.
Proof.
  assert (Hn : normalized (normalizeTrips [mkTrip "a" 0 179; mkTrip "b" 0 179])).
  { vm_compute. repeat constructor; unfold gap_ok; simpl; lia. }
  split; [exact Hn|]. exact (usedDays_bounds_normalized _ 179 Hn).
Defined.

(** C8: every trip list produced by [updateTripsFromSet], hence by
    [toggleDate] and [addTripRange], is sorted with gaps of at least 2 days,
    pairwise disjoint, made of valid trips, left unchanged by
    [normalizeTrips], and its usage counts each covered window day once. *)
Theorem edit_outputs_normalized (uuid : nat -> string) :
  (forall dateSet, edit_output_ok (updateTripsFromSet uuid dateSet)) /\
  (forall trips d, edit_output_ok (toggleDate uuid trips d)) /\
  (forall trips d1 d2, edit_output_ok (addTripRange uuid trips d1 d2)).
Proof.
  split; [|split].
  - intros dateSet. apply updateTripsFromSet_ok.
  - intros trips d. unfold toggleDate. apply updateTripsFromSet_ok.
  - intros trips d1 d2. unfold addTripRange. apply updateTripsFromSet_ok.
Qed.

(** C9: a refusal from [canStayForPeriod] carries in [usedOnExit] the
    usage on the reported violation day, which exceeds 90. *)
Theorem canStayForPeriod_refusal_usage (trips : list Trip) (E X : date) :
  isAllowed (canStayForPeriod trips E X) = false ->
  exists v, violationDate (canStayForPeriod trips E X) = Some v /\
    usedOnExit (canStayForPeriod trips E X) =
      calculateUsedDaysWithinWindow (combinedTrips trips E X) v /\
    90 < usedOnExit (canStayForPeriod trips E X).
Proof.
  intros Hf. destruct (canStay_refused trips E X Hf) as (v & Hv & _ & Hu & Hgt & _).
  exists v. unfold combinedTrips. split; [done|]. split; [done|lia].
Qed.

(** At the refused 92-day stay from 100 the usage on the violation day 190
    is 91, while the usage at the exit day 191 would be 92. *)
Lemma canStayForPeriod_refusal_usage_witness :
  isAllowed (canStayForPeriod [] 100 191) = false /\
  usedOnExit (canStayForPeriod [] 100 191) = 91 /\
  calculateUsedDaysWithinWindow (combinedTrips [] 100 191) 191 = 92 /\
  exists v, violationDate (canStayForPeriod [] 100 191) = Some v /\
    usedOnExit (canStayForPeriod [] 100 191) =
      calculateUsedDaysWithinWindow (combinedTrips [] 100 191) v.
Proof.
  assert (Hf : isAllowed (canStayForPeriod [] 100 191) = false) by (vm_compute; reflexivity).
  split; [exact Hf|]. split; [vm_compute; reflexivity|]. split; [vm_compute; reflexivity|].
  destruct (canStayForPeriod_refusal_usage [] 100 191 Hf) as (v & Hv & Hu & _).
  exists v. split; [exact Hv|exact Hu].
Defined.

(** C10: when no day can be added ([maxDays = 0]), [untilDate] is the day
    before the entry date. *)
Theorem maxSafeStay_zero_until (trips : list Trip) (E : date) :
  maxDays (getMaxSafeStayFromDate trips E) = 0 ->
  untilDate (getMaxSafeStayFromDate trips E) = E - 1.
Proof.
  unfold getMaxSafeStayFromDate. cbn [maxDays untilDate]. intros H. rewrite H. lia.
Qed.

Lemma maxSafeStay_zero_until_witness :
  maxDays (getMaxSafeStayFromDate [mkTrip "a" (-90) (-1)] 0) = 0 /\
  untilDate (getMaxSafeStayFromDate [mkTrip "a" (-90) (-1)] 0) = -1.
Proof.
  assert (H0 : maxDays (getMaxSafeStayFromDate [mkTrip "a" (-90) (-1)] 0) = 0)
    by (vm_compute; reflexivity).
  split; [exact H0|]. exact (maxSafeStay_zero_until _ 0 H0).
Defined.

(** * Further properties of the code *)

(** ** Presence edits *)

Lemma updateTripsFromSet_covered (uuid : nat -> string) (dateSet : gset Z) (x : date) :
  covered (updateTripsFromSet uuid dateSet) x <-> x ∈ dateSet.
Proof. apply (updateTripsFromSet_props uuid dateSet). Qed.

Lemma toggleDate_covered (uuid : nat -> string) (trips : list Trip) (d : date) :
  (covered (toggleDate uuid trips d) d <-> ~ covered trips d) /\
  (forall x, x <> d -> covered (toggleDate uuid trips d) x <-> covered trips x).
Proof.
  unfold toggleDate. split; [|intros x Hx];
    rewrite updateTripsFromSet_covered, <- ?expand_spec;
    destruct (decide (d ∈ expand trips)); set_solver.
Qed.

(** X1: [toggleDate] flips the presence of the toggled day and leaves every
    other day as it was. *)
Theorem toggleDate_flips (uuid : nat -> string) (trips : list Trip) (d : date) :
  (covered (toggleDate uuid trips d) d <-> ~ covered trips d) /\
  (forall x, x <> d -> covered (toggleDate uuid trips d) x <-> covered trips x).
Proof. apply toggleDate_covered. Qed.

(** X2: toggling the same day twice gives back the trips in normalized
    form (same entry and exit dates as [normalizeTrips]). *)
Theorem toggleDate_twice (uuid : nat -> string) (trips : list Trip) (d : date) :
  Forall valid_trip trips ->
  dates_of (toggleDate uuid (toggleDate uuid trips d) d) = dates_of (normalizeTrips trips).
Proof.
  intros Hv. unfold toggleDate at 1.
  destruct (updateTripsFromSet_props uuid
    (if decide (d ∈ expand (toggleDate uuid trips d))
     then expand (toggleDate uuid trips d) ∖ {[d]}
     else expand (toggleDate uuid trips d) ∪ {[d]})) as (Hn & Hv' & Hc).
  apply normalized_unique; [done|apply normalizeTrips_sorted|done|
    by apply normalizeTrips_valid|].
  intros x. rewrite Hc, normalizeTrips_covered.
  unfold toggleDate in *.
  rewrite <- expand_spec.
  assert (Hin : forall y, y ∈ expand (updateTripsFromSet uuid
      (if decide (d ∈ expand trips) then expand trips ∖ {[d]} else expand trips ∪ {[d]}))
      <-> y ∈ (if decide (d ∈ expand trips) then expand trips ∖ {[d]}
               else expand trips ∪ {[d]})).
  { intros y. by rewrite expand_spec, updateTripsFromSet_covered. }
  destruct (decide (d ∈ expand trips)) as [Hd|Hd];
  destruct (decide (d ∈ expand (updateTripsFromSet uuid _))) as [Hd'|Hd'];
  rewrite ?elem_of_difference, ?elem_of_union, ?elem_of_singleton, !Hin;
  rewrite ?elem_of_difference, ?elem_of_union, ?elem_of_singleton in *;
  rewrite ?Hin in Hd'; rewrite ?elem_of_difference, ?elem_of_union, ?elem_of_singleton in Hd';
  destruct (Z.eq_dec x d); subst; tauto.
Qed.

Lemma toggleDate_twice_witness :
  Forall valid_trip [mkTrip "a" 0 4; mkTrip "b" 3 9] /\
  dates_of (toggleDate uid (toggleDate uid [mkTrip "a" 0 4; mkTrip "b" 3 9] 6) 6) =
  dates_of (normalizeTrips [mkTrip "a" 0 4; mkTrip "b" 3 9]).
Proof.
  assert (Hv : Forall valid_trip [mkTrip "a" 0 4; mkTrip "b" 3 9])
    by (repeat constructor; unfold valid_trip; simpl; lia).
  split; [exact Hv|]. exact (toggleDate_twice uid _ 6 Hv).
Defined.

(** X3: [addTripRange] adds exactly the days between the two clicked dates,
    whichever is clicked first. *)
Theorem addTripRange_covered (uuid : nat -> string) (trips : list Trip) (d1 d2 : date) :
  (forall x, covered (addTripRange uuid trips d1 d2) x <->
     covered trips x \/ Z.min d1 d2 <= x <= Z.max d1 d2) /\
  addTripRange uuid trips d1 d2 = addTripRange uuid trips d2 d1.
Proof.
  split.
  - intros x. unfold addTripRange. rewrite updateTripsFromSet_covered, add_days_spec,
      expand_spec, of_nat_to_nat.
    destruct (Z.ltb_spec d1 d2); destruct (Z.ltb_spec d2 d1);
      split; (intros [Hc|Hc]; [by left|right; lia]).
  - unfold addTripRange.
    destruct (Z.ltb_spec d1 d2); destruct (Z.ltb_spec d2 d1); try lia;
      try reflexivity.
    assert (d1 = d2) as -> by lia. reflexivity.
Qed.

(** X4: after the dashboard's "Outside" button the reference date is a day
    of absence, after "Inside" a day of presence; no other day changes. *)
Theorem presence_buttons (uuid : nat -> string) (trips : list Trip) (refDate : date) :
  ~ covered (pressOutside uuid trips refDate) refDate /\
  covered (pressInside uuid trips refDate) refDate /\
  (forall x, x <> refDate ->
     (covered (pressOutside uuid trips refDate) x <-> covered trips x) /\
     (covered (pressInside uuid trips refDate) x <-> covered trips x)).
Proof.
  destruct (toggleDate_covered uuid trips refDate) as [Hd Hx].
  unfold pressOutside, pressInside, isPresentOnRefDate.
  destruct (bool_decide_reflect (refDate ∈ expand trips)) as [Hin|Hin];
    rewrite expand_spec in Hin; simpl.
  - split; [rewrite Hd; tauto|]. split; [done|].
    intros x Hne. split; [by apply Hx|done].
  - split; [done|]. split; [rewrite Hd; done|].
    intros x Hne. split; [done|by apply Hx].
Qed.

(** ** Violation days *)

(** ** Violation days *)

Lemma isPresent_coveredb (trips : list Trip) (d : date) :
  isPresent trips d = coveredb trips d.
Proof.
  unfold isPresent, coveredb, in_tripb.
  induction trips as [|t trips IH]; simpl; [done|]. rewrite IH. f_equal.
  destruct (Z.ltb_spec d (entryDate t)), (Z.leb_spec (entryDate t) d),
    (Z.ltb_spec (exitDate t) d), (Z.leb_spec d (exitDate t)); simpl; done || lia.
Qed.

Lemma eachDayOfInterval_window (referenceDate : date) :
  eachDayOfInterval (referenceDate - 179) referenceDate = window referenceDate.
Proof.
  unfold eachDayOfInterval, window.
  replace (referenceDate - (referenceDate - 179) + 1) with 180 by lia. reflexivity.
Qed.

Lemma days_from_sorted (lo : date) (s n : nat) :
  StronglySorted Z.lt (map (fun i => lo + Z.of_nat i) (seq s n)).
Proof.
  revert s. induction n as [|n IH]; intros s; simpl; constructor; [apply IH|].
  apply Forall_forall. intros x Hx. apply list_elem_of_In, in_map_iff in Hx.
  destruct Hx as (i & <- & Hi). apply in_seq in Hi. lia.
Qed.

Lemma filter_strongly_sorted {A} (R : A -> A -> Prop) (p : A -> bool) (l : list A) :
  StronglySorted R l -> StronglySorted R (List.filter p l).
Proof.
  induction 1 as [|x l Hs IH Hall]; simpl; [constructor|].
  destruct (p x); [|done]. constructor; [done|].
  apply Forall_forall. intros y Hy. apply list_elem_of_In, filter_In in Hy.
  rewrite Forall_forall in Hall. apply Hall, list_elem_of_In, Hy.
Qed.

(** X5: the violation days of the breakdown are exactly the days of the
    window ending on the reference date on which the traveller is present
    and the usage of the window ending that day exceeds 90, listed in
    strictly increasing order. *)
Theorem violationDays_spec (trips : list Trip) (referenceDate : date) :
  (forall v, In v (violationDays trips referenceDate) <->
     referenceDate - 179 <= v <= referenceDate /\ covered trips v /\
     90 < calculateUsedDaysWithinWindow trips v) /\
  StronglySorted Z.lt (violationDays trips referenceDate).
Proof.
  unfold violationDays. rewrite eachDayOfInterval_window. split.
  - intros v. rewrite !filter_In, window_spec, isPresent_coveredb, coveredb_spec, Z.ltb_lt.
    tauto.
  - apply filter_strongly_sorted, filter_strongly_sorted. unfold window.
    apply days_from_sorted.
Qed.

(** X6: on normalized trips the breakdown never lists more violation days
    than the days used in the window ending on the reference date. *)
Theorem violationDays_length (trips : list Trip) (referenceDate : date) :
  normalized trips ->
  Z.of_nat (length (violationDays trips referenceDate)) <=
  calculateUsedDaysWithinWindow trips referenceDate.
Proof.
  intros Hn. rewrite usedDays_normalized by done.
  unfold violationDays, count_days. rewrite eachDayOfInterval_window.
  apply Nat2Z.inj_le.
  induction (window referenceDate) as [|x w IH]; simpl; [done|].
  rewrite isPresent_coveredb.
  destruct (coveredb trips x); simpl; [|done].
  destruct (90 <? _); simpl; lia.
Qed.

Lemma violationDays_length_witness :
  normalized [mkTrip "a" 0 99] /\
  Z.of_nat (length (violationDays [mkTrip "a" 0 99] 120)) <=
  calculateUsedDaysWithinWindow [mkTrip "a" 0 99] 120.
Proof.
  assert (Hn : normalized [mkTrip "a" 0 99]) by (repeat constructor).
  split; [exact Hn|]. exact (violationDays_length _ 120 Hn).
Defined.

(** ** Calculator quick buttons *)

(** X7: a quick button adding [days >= 0] always yields a result, and the
    stay then lasts [days] more days than before, counting an empty
    (reversed) selection as a stay of one day. *)
Theorem addDuration_result (trips : list Trip) (entry exit days : date) :
  0 <= days ->
  calculatorResult trips entry (addDuration entry exit days) =
    Some (canStayForPeriod trips entry (addDuration entry exit days)) /\
  duration entry (addDuration entry exit days) = Z.max 1 (duration entry exit) + days.
Proof.
  intros Hd. unfold calculatorResult, duration, addDuration.
  destruct (Z.ltb_spec exit entry); cmp_cases; simpl; split; try reflexivity; lia.
Qed.

Lemma addDuration_result_witness :
  0 <= 7 /\
  calculatorResult [] 10 (addDuration 10 5 7) =
    Some (canStayForPeriod [] 10 (addDuration 10 5 7)) /\
  duration 10 (addDuration 10 5 7) = Z.max 1 (duration 10 5) + 7.
Proof. split; [lia|]. apply (addDuration_result [] 10 5 7). lia. Defined.

(** X8: pressing two quick buttons in a row, the first with [d1 >= 0], adds
    the two durations. *)
Theorem addDuration_compose (entry exit d1 d2 : date) :
  0 <= d1 ->
  addDuration entry (addDuration entry exit d1) d2 = addDuration entry exit (d1 + d2).
Proof.
  intros Hd. unfold addDuration. cmp_cases; lia.
Qed.

Lemma addDuration_compose_witness :
  0 <= 7 /\ addDuration 3 (addDuration 3 9 7) 14 = addDuration 3 9 (7 + 14).
Proof. split; [lia|]. apply addDuration_compose. lia. Defined.

(** ** Week start *)

(** X9: for [weekStartsOn] in 0..6, [startOfWeekPolyfill] goes back at most
    six days to a day whose weekday is [weekStartsOn]. *)
Theorem startOfWeekPolyfill_spec (d weekStartsOn : date) :
  0 <= weekStartsOn <= 6 ->
  0 <= d - startOfWeekPolyfill d weekStartsOn <= 6 /\
  getDay (startOfWeekPolyfill d weekStartsOn) = weekStartsOn.
Proof.
  intros Hw. unfold startOfWeekPolyfill, getDay.
  pose proof (Z.mod_pos_bound (d + 4) 7 ltac:(lia)) as Hb.
  pose proof (Z.div_mod (d + 4) 7 ltac:(lia)) as Hdm.
  set (r := (d + 4) mod 7) in *. set (q := (d + 4) / 7) in *.
  destruct (Z.ltb_spec r weekStartsOn); split; try lia.
  - replace (d - (7 + r - weekStartsOn) + 4) with (weekStartsOn + (q - 1) * 7) by lia.
    rewrite Z_mod_plus_full. apply Z.mod_small. lia.
  - replace (d - (0 + r - weekStartsOn) + 4) with (weekStartsOn + q * 7) by lia.
    rewrite Z_mod_plus_full. apply Z.mod_small. lia.
Qed.

Lemma startOfWeekPolyfill_spec_witness :
  0 <= 1 <= 6 /\
  0 <= 10 - startOfWeekPolyfill 10 1 <= 6 /\ getDay (startOfWeekPolyfill 10 1) = 1.
Proof. split; [lia|]. apply startOfWeekPolyfill_spec. lia. Defined.

(** ** Profiles *)

Lemma filter_all {A} (p : A -> bool) (l : list A) :
  (forall x, In x l -> p x = true) -> List.filter p l = l.
Proof.
  induction l as [|x l IH]; intros Hall; simpl; [done|].
  rewrite (Hall x (in_eq x l)), IH; [done|]. intros y Hy. apply Hall. by right.
Qed.

Lemma filter_other_ids_length (id : string) (l : list Profile) :
  List.NoDup (map profile_id l) ->
  (length l <= S (length (List.filter (fun p => negb (String.eqb (profile_id p) id)) l)))%nat.
Proof.
  induction l as [|q l IH]; intros Hnd; simpl; [lia|].
  inversion Hnd as [|? ? Hnin Hnd']; subst.
  destruct (String.eqb_spec (profile_id q) id) as [Heq|Hne]; simpl.
  - rewrite filter_all; [lia|]. intros y Hy.
    destruct (String.eqb_spec (profile_id y) id); [|done].
    exfalso. apply Hnin. rewrite Heq, <- e. by apply in_map.
  - specialize (IH Hnd'). lia.
Qed.

Lemma find_app_none {A} (f : A -> bool) (l1 l2 : list A) :
  List.find f l1 = None -> List.find f (l1 ++ l2) = List.find f l2.
Proof.
  induction l1 as [|x l1 IH]; simpl; [done|].
  destruct (f x); [discriminate|]. exact IH.
Qed.

Lemma find_all_false {A} (f : A -> bool) (l : list A) :
  (forall x, In x l -> f x = false) -> List.find f l = None.
Proof.
  induction l as [|x l IH]; intros Hall; simpl; [done|].
  rewrite (Hall x (in_eq x l)). apply IH. intros y Hy. apply Hall. by right.
Qed.

(** X10: [addProfile] never takes the store past [MAX_PROFILES] profiles;
    below the limit, with a fresh id, the new profile, with no trips,
    becomes the active one. *)
Theorem addProfile_spec (newId nm : string) (st : Store) :
  ((length (profiles st) <= MAX_PROFILES)%nat ->
   (length (profiles (addProfile newId nm st)) <= MAX_PROFILES)%nat) /\
  ((length (profiles st) < MAX_PROFILES)%nat ->
   ~ In newId (map profile_id (profiles st)) ->
   activeProfile (addProfile newId nm st) = Some (mkProfile newId nm [])).
Proof.
  unfold addProfile. destruct (Nat.leb_spec MAX_PROFILES (length (profiles st))).
  - split; [done|lia].
  - split; [intros _; simpl; rewrite length_app; simpl; lia|].
    intros _ Hfresh. unfold activeProfile. simpl.
    rewrite find_app_none; [simpl; by rewrite String.eqb_refl|].
    apply find_all_false. intros p Hp.
    destruct (String.eqb_spec (profile_id p) newId) as [<-|]; [|done].
    exfalso. apply Hfresh. by apply in_map.
Qed.

(** X11: with distinct profile ids, removing a profile from a non-empty
    store always succeeds and leaves at least one profile; the remaining
    profiles are old ones, the removed id is gone when two or more profiles
    existed, and an active id naming a profile still names one. *)
Theorem removeProfile_ok (id : string) (st : Store) :
  List.NoDup (map profile_id (profiles st)) -> profiles st <> [] ->
  exists st', removeProfile id st = Some st' /\ profiles st' <> [] /\
    (forall p, In p (profiles st') -> In p (profiles st)) /\
    (In (activeProfileId st) (map profile_id (profiles st)) ->
       In (activeProfileId st') (map profile_id (profiles st'))) /\
    ((2 <= length (profiles st))%nat -> ~ In id (map profile_id (profiles st'))).
Proof.
  intros Hnd Hne. unfold removeProfile.
  destruct (Nat.leb_spec (length (profiles st)) 1).
  - exists st. split; [done|]. split; [done|]. split; [done|]. split; [done|].
    intros ?; lia.
  - pose proof (filter_other_ids_length id _ Hnd) as Hlen.
    remember (List.filter (fun p => negb (String.eqb (profile_id p) id)) (profiles st))
      as np eqn:Hnp_def.
    assert (Hsub : forall p, In p np -> In p (profiles st) /\ profile_id p <> id).
    { intros p Hp. rewrite Hnp_def in Hp. apply filter_In in Hp as [Hp Hid]. split; [done|].
      by destruct (String.eqb_spec (profile_id p) id). }
    assert (Hgone : ~ In id (map profile_id np)).
    { intros Hin. apply in_map_iff in Hin as (p & Hp & Hin).
      apply Hsub in Hin as [_ Hin]. done. }
    destruct (String.eqb_spec (activeProfileId st) id) as [Ha|Ha].
    + destruct np as [|p np']; simpl in Hlen; [lia|].
      eexists. split; [reflexivity|]. simpl.
      split; [done|]. split; [intros q Hq; by apply Hsub|].
      split; [intros _; by left|]. intros _. exact Hgone.
    + eexists. split; [reflexivity|]. simpl.
      split; [destruct np; simpl in Hlen; [lia|done]|].
      split; [intros q Hq; by apply Hsub|].
      split; [|intros _; done].
      intros Hin. apply in_map_iff in Hin as (p & Hp & Hin).
      apply in_map_iff. exists p. split; [done|].
      rewrite Hnp_def. apply filter_In. split; [done|]. rewrite Hp.
      by destruct (String.eqb_spec (activeProfileId st) id).
Qed.

Lemma removeProfile_ok_witness :
  List.NoDup (map profile_id [mkProfile "default" "Me" []; mkProfile "b" "B" []]) /\
  [mkProfile "default" "Me" []; mkProfile "b" "B" []] <> [] /\
  exists st', removeProfile "default"
      (mkStore [mkProfile "default" "Me" []; mkProfile "b" "B" []] "default") = Some st' /\
    profiles st' <> [] /\
    (forall p, In p (profiles st') ->
       In p [mkProfile "default" "Me" []; mkProfile "b" "B" []]) /\
    (In "default"%string (map profile_id [mkProfile "default" "Me" []; mkProfile "b" "B" []]) ->
       In (activeProfileId st') (map profile_id (profiles st'))) /\
    ((2 <= length [mkProfile "default" "Me" []; mkProfile "b" "B" []])%nat ->
       ~ In "default"%string (map profile_id (profiles st'))).
Proof.
  assert (Hnd : List.NoDup (map profile_id [mkProfile "default" "Me" []; mkProfile "b" "B" []])).
  { simpl. constructor; [simpl; intros [H|H]; [discriminate|contradiction]|].
    constructor; [intros []|constructor]. }
  assert (Hne : [mkProfile "default" "Me" []; mkProfile "b" "B" []] <> []) by discriminate.
  split; [exact Hnd|]. split; [exact Hne|].
  exact (removeProfile_ok "default"
    (mkStore [mkProfile "default" "Me" []; mkProfile "b" "B" []] "default") Hnd Hne).
Defined.

(** X12: [removeProfile] fails (reads the id of [newProfiles[0]] from an
    empty list) exactly when at least two profiles exist, the active one
    is removed and every profile carries the removed id. *)
Theorem removeProfile_crash (id : string) (st : Store) :
  removeProfile id st = None <->
  (2 <= length (profiles st))%nat /\ activeProfileId st = id /\
  Forall (fun p => profile_id p = id) (profiles st).
Proof.
  unfold removeProfile.
  assert (Hf : List.filter (fun p => negb (String.eqb (profile_id p) id)) (profiles st) = [] <->
               Forall (fun p => profile_id p = id) (profiles st)).
  { induction (profiles st) as [|q l IH]; simpl; [split; [constructor|done]|].
    rewrite Forall_cons.
    destruct (String.eqb_spec (profile_id q) id); simpl; [rewrite IH; tauto|].
    split; [discriminate|intros [? _]; done]. }
  destruct (Nat.leb_spec (length (profiles st)) 1).
  - split; [discriminate|lia].
  - destruct (String.eqb_spec (activeProfileId st) id).
    + destruct (List.filter _ _) eqn:Hnp.
      * split; [intros _|done]. split; [lia|]. split; [done|]. by apply Hf.
      * split; [discriminate|]. intros (_ & _ & Hall). apply Hf in Hall. congruence.
    + split; [discriminate|]. intros (_ & ? & _). done.
Qed.

(** ** The store's toggleDate *)

Lemma lookup_list_map {A B} (f : A -> B) (l : list A) (i : nat) :
  List.map f l !! i = option_map f (l !! i).
Proof.
  revert i. induction l as [|x l IH]; intros [|i]; simpl; try done.
Qed.

(** X13: the store's [toggleDate] keeps the profiles, their order, ids and
    names and the active id; a profile other than the active one is left
    untouched, and in the active one only the toggled day changes, flipped. *)
Theorem storeToggleDate_spec (uuid : nat -> string) (st : Store) (d : date) :
  activeProfileId (storeToggleDate uuid st d) = activeProfileId st /\
  length (profiles (storeToggleDate uuid st d)) = length (profiles st) /\
  forall i p, profiles st !! i = Some p ->
    exists p', profiles (storeToggleDate uuid st d) !! i = Some p' /\
      profile_id p' = profile_id p /\ name p' = name p /\
      (profile_id p <> activeProfileId st -> p' = p) /\
      (profile_id p = activeProfileId st ->
         (covered (trips p') d <-> ~ covered (trips p) d) /\
         forall x, x <> d -> covered (trips p') x <-> covered (trips p) x).
Proof.
  unfold storeToggleDate; simpl. split; [done|]. split; [apply length_map|].
  intros i p Hi. rewrite lookup_list_map, Hi. eexists. split; [reflexivity|].
  destruct (String.eqb_spec (profile_id p) (activeProfileId st)) as [Ha|Ha]; simpl.
  - split; [done|]. split; [done|]. split; [done|].
    intros _. apply toggleDate_covered.
  - split; [done|]. split; [done|]. split; [done|]. done.
Qed.

(** ** page.tsx: counting selected dates *)

Lemma fold_count_map (f : Z -> Z) (p : Z -> bool) (l : list Z) (acc : Z) :
  fold_left (fun n dt => if p dt then n + 1 else n) (map f l) acc =
  acc + count_days (fun k => p (f k)) l.
Proof.
  unfold count_days. revert acc. induction l as [|x l IH]; intros acc; simpl; [lia|].
  rewrite IH. destruct (p (f x)); simpl; lia.
Qed.

Lemma count_days_ext (p q : Z -> bool) (l : list Z) :
  (forall k, p k = q k) -> count_days p l = count_days q l.
Proof.
  intros Hpq. unfold count_days. f_equal. f_equal.
  induction l as [|x l IH]; simpl; [done|]. by rewrite Hpq, IH.
Qed.

(** X14: on dates selected at midnight ([k * DAY] for day [k]), with the
    reference instant in day [r], [calculateDaysInWindow] counts the
    selected days from [r - 179] to [r] (180 days), and from [r - 180] to
    [r] (181 days) when the reference instant is itself a midnight. *)
Theorem calculateDaysInWindow_days (days : list Z) (r t : Z) :
  0 <= t < DAY ->
  calculateDaysInWindow (map (fun k => k * DAY) days) (r * DAY + t) =
  count_days (fun k => ((if t =? 0 then r - 180 else r - 179) <=? k) && (k <=? r)) days.
Proof.
  intros Ht. unfold calculateDaysInWindow. rewrite fold_count_map, Z.add_0_l.
  apply count_days_ext. intros k. unfold DAY in *.
  destruct (Z.eqb_spec t 0); cmp_cases; simpl; done || lia.
Qed.

Lemma calculateDaysInWindow_days_witness :
  0 <= 5 < DAY /\
  calculateDaysInWindow (map (fun k => k * DAY) [10; 200; 300]) (300 * DAY + 5) =
  count_days (fun k => ((if 5 =? 0 then 300 - 180 else 300 - 179) <=? k) && (k <=? 300))
    [10; 200; 300].
Proof.
  assert (Ht : 0 <= 5 < DAY) by (unfold DAY; lia).
  split; [exact Ht|]. exact (calculateDaysInWindow_days [10; 200; 300] 300 5 Ht).
Defined.

(** X15: on dates selected at midnight, with the future date in day [r],
    [calculateFutureStayInfo] counts the selected days from [r - 180] to
    [r - 1] when the future date is a midnight (from [r - 179] to [r]
    otherwise), and the available days are 90 minus that count, never
    below 0. *)
Theorem calculateFutureStayInfo_days (days : list Z) (r t : Z) :
  0 <= t < DAY ->
  let used := count_days (fun k =>
    ((if t =? 0 then r - 180 else r - 179) <=? k) &&
    (k <=? (if t =? 0 then r - 1 else r))) days in
  calculateFutureStayInfo (map (fun k => k * DAY) days) (r * DAY + t) =
  (used, Z.max 0 (90 - used)).
Proof.
  intros Ht used. unfold calculateFutureStayInfo. rewrite fold_count_map, Z.add_0_l.
  assert (Hc : count_days (fun k =>
      (r * DAY + t - 180 * DAY <=? k * DAY) && (k * DAY <? r * DAY + t)) days = used).
  { apply count_days_ext. intros k. unfold DAY in *.
    destruct (Z.eqb_spec t 0); cmp_cases; simpl; done || lia. }
  by rewrite Hc.
Qed.

Lemma calculateFutureStayInfo_days_witness :
  0 <= 0 < DAY /\
  calculateFutureStayInfo (map (fun k => k * DAY) [10; 120; 300]) (300 * DAY + 0) =
  (count_days (fun k => ((if 0 =? 0 then 300 - 180 else 300 - 179) <=? k) &&
     (k <=? (if 0 =? 0 then 300 - 1 else 300))) [10; 120; 300],
   Z.max 0 (90 - count_days (fun k => ((if 0 =? 0 then 300 - 180 else 300 - 179) <=? k) &&
     (k <=? (if 0 =? 0 then 300 - 1 else 300))) [10; 120; 300])).
Proof.
  assert (Ht : 0 <= 0 < DAY) by (unfold DAY; lia).
  split; [exact Ht|]. exact (calculateFutureStayInfo_days [10; 120; 300] 300 0 Ht).
Defined.

(** ** page.tsx: range selection *)

Lemma range_loop_spec (cur end_ : Z) (fuel : nat) (x : Z) :
  In x (range_loop cur end_ fuel) <->
  exists i, (i < fuel)%nat /\ x = cur + Z.of_nat i * DAY /\ x <= end_.
Proof.
  revert cur. induction fuel as [|fuel IH]; intros cur; simpl.
  - split; [done|]. intros (i & Hi & _). lia.
  - destruct (Z.leb_spec cur end_) as [Hle|Hgt].
    + simpl. rewrite IH. split.
      * intros [<-|(i & Hi & -> & Hx)]; [exists 0%nat; split; [lia|]; split; [lia|done]|].
        exists (S i). split; [lia|]. split; [|done]. rewrite Nat2Z.inj_succ. lia.
      * intros ([|i] & Hi & -> & Hx); [left; lia|right].
        exists i. split; [lia|]. split; [|done]. rewrite Nat2Z.inj_succ. lia.
    + split; [done|]. intros (i & Hi & -> & Hx). unfold DAY in Hx. lia.
Qed.

Lemma toDateString_shift (cur : Z) (i : Z) :
  toDateString (cur + i * DAY) = toDateString cur + i.
Proof. unfold toDateString. rewrite Z.div_add by (unfold DAY; lia). done. Qed.

Lemma range_loop_NoDup (cur end_ : Z) (fuel : nat) :
  NoDup (map toDateString (range_loop cur end_ fuel)).
Proof.
  revert cur. induction fuel as [|fuel IH]; intros cur; simpl; [constructor|].
  destruct (cur <=? end_); simpl; [|constructor].
  constructor; [|apply IH].
  intros Hin. apply list_elem_of_In, in_map_iff in Hin as (y & Hy & Hin).
  apply range_loop_spec in Hin as (i & _ & -> & _).
  replace (cur + DAY + Z.of_nat i * DAY) with (cur + (Z.of_nat i + 1) * DAY) in Hy by lia.
  rewrite toDateString_shift in Hy. lia.
Qed.

Lemma NoDup_map_filter (f : Z -> Z) (p : Z -> bool) (l : list Z) :
  NoDup (map f l) -> NoDup (map f (List.filter p l)).
Proof.
  induction l as [|x l IH]; simpl; [done|]. rewrite NoDup_cons. intros [Hx Hl].
  destruct (p x); simpl; [|by apply IH]. rewrite NoDup_cons. split; [|by apply IH].
  intros Hin. apply Hx. apply list_elem_of_In in Hin. apply list_elem_of_In.
  apply in_map_iff in Hin as (y & <- & Hy). apply in_map. by apply filter_In in Hy as [? _].
Qed.

Lemma handleRangeSelection_eq (selectedDates : list Z) (a b : Z) :
  handleRangeSelection selectedDates a b =
  selectedDates ++ List.filter (fun d =>
    negb (existsb (Z.eqb (toDateString d)) (map toDateString selectedDates)))
    (range_loop (Z.min a b) (Z.max a b) (S (Z.to_nat ((Z.max a b - Z.min a b) / DAY)))).
Proof.
  unfold handleRangeSelection.
  destruct (Z.ltb_spec a b); [rewrite Z.min_l, Z.max_r by lia|rewrite Z.min_r, Z.max_l by lia];
    reflexivity.
Qed.

(** X16: the second click of a range selection gives the same dates
    whichever end was clicked first; it keeps the selected dates, adds
    only instants between the two clicks, selects every calendar day of
    the range, and never selects a calendar day twice if the old
    selection did not. *)
Theorem handleRangeSelection_spec (selectedDates : list Z) (a b : Z) :
  handleRangeSelection selectedDates a b = handleRangeSelection selectedDates b a /\
  (forall x, In x selectedDates -> In x (handleRangeSelection selectedDates a b)) /\
  (forall x, In x (handleRangeSelection selectedDates a b) ->
     In x selectedDates \/ Z.min a b <= x <= Z.max a b) /\
  (forall i, 0 <= i -> Z.min a b + i * DAY <= Z.max a b ->
     exists x, In x (handleRangeSelection selectedDates a b) /\
       toDateString x = toDateString (Z.min a b) + i) /\
  (NoDup (map toDateString selectedDates) ->
   NoDup (map toDateString (handleRangeSelection selectedDates a b))).
Proof.
  rewrite !handleRangeSelection_eq, (Z.min_comm b a), (Z.max_comm b a).
  set (lo := Z.min a b). set (hi := Z.max a b).
  assert (Hlohi : lo <= hi) by (subst lo hi; lia).
  set (P := fun d => negb (existsb (Z.eqb (toDateString d)) (map toDateString selectedDates))).
  set (R := range_loop lo hi (S (Z.to_nat ((hi - lo) / DAY)))).
  split; [done|]. split; [|split; [|split]].
  - intros x Hx. apply in_app_iff. by left.
  - intros x. rewrite in_app_iff. intros [Hx|Hx]; [by left|right].
    apply filter_In in Hx as [Hx _]. apply range_loop_spec in Hx as (i & _ & -> & Hx).
    unfold DAY in *. lia.
  - intros i Hi Hx.
    assert (HR : In (lo + i * DAY) R).
    { apply range_loop_spec. exists (Z.to_nat i). rewrite Z2Nat.id by done.
      split; [|done].
      pose proof (Z.div_mod (hi - lo) DAY ltac:(unfold DAY; lia)) as Hdm.
      pose proof (Z.mod_pos_bound (hi - lo) DAY ltac:(unfold DAY; lia)) as Hb.
      assert (i <= (hi - lo) / DAY) by (unfold DAY in *; lia). lia. }
    destruct (P (lo + i * DAY)) eqn:HP.
    + exists (lo + i * DAY). split; [|apply toDateString_shift].
      apply in_app_iff. right. by apply filter_In.
    + unfold P in HP. apply negb_false_iff, existsb_exists in HP as (s & Hs & Heq).
      apply Z.eqb_eq in Heq. apply in_map_iff in Hs as (y & <- & Hy).
      exists y. split; [apply in_app_iff; by left|].
      by rewrite <- Heq, toDateString_shift.
  - intros Hnd. rewrite map_app, NoDup_app. split; [done|]. split.
    + intros k Hk Hk'. apply list_elem_of_In, in_map_iff in Hk' as (y & <- & Hy).
      apply filter_In in Hy as [_ HP]. unfold P in HP.
      apply negb_true_iff in HP.
      assert (existsb (Z.eqb (toDateString y)) (map toDateString selectedDates) = true)
        as Hc; [|congruence].
      apply existsb_exists. exists (toDateString y).
      split; [by apply list_elem_of_In|apply Z.eqb_refl].
    + apply NoDup_map_filter, range_loop_NoDup.
Qed.

(** ** page.tsx: longest continuous stay *)

Lemma max_continuous_loop_spec (sel : list Z) (checkDate : Z) (fuel : nat) (maxDays : Z) :
  exists n : nat, max_continuous_loop sel checkDate fuel maxDays = maxDays + Z.of_nat n /\
    (n <= fuel)%nat /\
    (forall i : nat, (i < n)%nat ->
       0 < snd (calculateFutureStayInfo sel (checkDate + Z.of_nat i * DAY))) /\
    ((n < fuel)%nat -> snd (calculateFutureStayInfo sel (checkDate + Z.of_nat n * DAY)) = 0).
Proof.
  revert checkDate maxDays.
  induction fuel as [|fuel IH]; intros checkDate maxDays; cbn [max_continuous_loop].
  - exists 0%nat. split; [lia|]. split; [lia|]. split; intros; lia.
  - destruct (Z.ltb_spec 0 (snd (calculateFutureStayInfo sel checkDate))) as [Hp|Hz].
    + destruct (IH (checkDate + DAY) (maxDays + 1)) as (n & Heq & Hn & Hall & Hstop).
      exists (S n). split; [rewrite Heq, Nat2Z.inj_succ; lia|]. split; [lia|]. split.
      * intros [|i] Hi;
          [by replace (checkDate + Z.of_nat 0 * DAY) with checkDate by lia|].
        replace (checkDate + Z.of_nat (S i) * DAY)
          with (checkDate + DAY + Z.of_nat i * DAY) by lia.
        apply Hall. lia.
      * intros Hlt. replace (checkDate + Z.of_nat (S n) * DAY)
          with (checkDate + DAY + Z.of_nat n * DAY) by lia.
        apply Hstop. lia.
    + exists 0%nat. split; [lia|]. split; [lia|]. split; [intros; lia|].
      intros _. replace (checkDate + Z.of_nat 0 * DAY) with checkDate by lia.
      unfold calculateFutureStayInfo in *. simpl in *. lia.
Qed.

(** X17: [getMaxContinuousStay] returns a number [n] of days between 0 and
    90 such that days remain available on each of the [n] days from the
    start date, and, when [n < 90], none on the day after them. *)
Theorem getMaxContinuousStay_spec (sel : list Z) (startDate : Z) :
  let n := getMaxContinuousStay sel startDate in
  0 <= n <= 90 /\
  (forall i, 0 <= i < n -> 0 < snd (calculateFutureStayInfo sel (startDate + i * DAY))) /\
  (n < 90 -> snd (calculateFutureStayInfo sel (startDate + n * DAY)) = 0).
Proof.
  unfold getMaxContinuousStay.
  destruct (max_continuous_loop_spec sel startDate 90 0) as (n & -> & Hn & Hall & Hstop).
  simpl. split; [lia|]. split.
  - intros i Hi. rewrite <- (Z2Nat.id i) by lia. apply Hall. lia.
  - intros Hlt. apply Hstop. lia.
Qed.

(** ** page.tsx: next entry date *)

Lemma next_entry_loop_spec (l : list Z) (fuel : nat) (i rt : Z) :
  0 <= rt <= 90 -> -1 <= i < Z.of_nat fuel ->
  next_entry_loop l i rt fuel =
  if 0 <=? i - (90 - rt) then Some (nth (Z.to_nat (i - (90 - rt))) l 0 + 180 * DAY)
  else None.
Proof.
  revert i rt. induction fuel as [|fuel IH]; intros i rt Hrt Hi;
    [simpl; destruct (Z.leb_spec 0 (i - (90 - rt))); [lia|done]|].
  cbn [next_entry_loop].
  destruct (Z.ltb_spec i 0); [destruct (Z.leb_spec 0 (i - (90 - rt))); [lia|done]|].
  destruct (Z.ltb_spec 90 (rt + 1)).
  - replace (i - (90 - rt)) with i by lia. destruct (Z.leb_spec 0 i); [done|lia].
  - rewrite IH by lia. replace (i - 1 - (90 - (rt + 1))) with (i - (90 - rt)) by lia. done.
Qed.

Lemma count_days_perm (p : Z -> bool) (l l' : list Z) :
  Permutation l l' -> count_days p l = count_days p l'.
Proof.
  unfold count_days. intros Hp. f_equal. induction Hp; simpl.
  - done.
  - by destruct (p x); simpl; rewrite IHHp.
  - by destruct (p x), (p y).
  - congruence.
Qed.

Lemma strongly_sorted_split {A} (R : A -> A -> Prop) (l1 l2 : list A) (x : A) :
  StronglySorted R (l1 ++ x :: l2) ->
  (forall y, In y l1 -> R y x) /\ (forall y, In y l2 -> R x y).
Proof.
  induction l1 as [|a l1 IH]; simpl; intros Hs.
  - apply StronglySorted_inv in Hs as [_ Hall]. split; [done|].
    intros y Hy. rewrite Forall_forall in Hall. apply Hall, list_elem_of_In, Hy.
  - apply StronglySorted_inv in Hs as [Hs Hall]. destruct (IH Hs) as [H1 H2].
    split; [|done]. intros y [<-|Hy]; [|by apply H1].
    rewrite Forall_forall in Hall. apply Hall, list_elem_of_In, in_app_iff. right. by left.
Qed.

Lemma count_days_le_length (p : Z -> bool) (l : list Z) :
  count_days p l <= Z.of_nat (length l).
Proof. apply count_days_bounds. Qed.

Lemma count_days_all (p : Z -> bool) (l : list Z) :
  (forall y, In y l -> p y = true) -> count_days p l = Z.of_nat (length l).
Proof. intros Hall. unfold count_days. by rewrite filter_all. Qed.

Lemma count_days_none (p : Z -> bool) (l : list Z) :
  (forall y, In y l -> p y = false) -> count_days p l = 0.
Proof.
  intros Hall. unfold count_days.
  induction l as [|x l IH]; simpl; [done|]. rewrite (Hall x (in_eq x l)).
  apply IH. intros y Hy. apply Hall. by right.
Qed.

Lemma count_days_cons (p : Z -> bool) (x : Z) (l : list Z) :
  count_days p (x :: l) = (if p x then 1 else 0) + count_days p l.
Proof. unfold count_days. simpl. destruct (p x); simpl; lia. Qed.

Lemma count_days_app (p : Z -> bool) (l1 l2 : list Z) :
  count_days p (l1 ++ l2) = count_days p l1 + count_days p l2.
Proof. unfold count_days. by rewrite List.filter_app, List.length_app, Nat2Z.inj_add. Qed.

Lemma calculateDaysInWindow_le_length (sel : list Z) (ref : Z) :
  calculateDaysInWindow sel ref <= Z.of_nat (length sel).
Proof.
  unfold calculateDaysInWindow.
  rewrite <- (map_id sel) at 1. rewrite fold_count_map, Z.add_0_l.
  apply count_days_bounds.
Qed.

(** X18: [calculateNextEntryDate] gives no date while at most 90 days are
    used; past 90 it gives the 91st most recent selected date (counting
    repeated dates) plus 180 days: at most 90 selected dates are later
    than it and at least 91 are not earlier. *)
Theorem calculateNextEntryDate_spec (sel : list Z) (now : Z) :
  (calculateDaysInWindow sel now <= 90 -> calculateNextEntryDate sel now = None) /\
  (90 < calculateDaysInWindow sel now ->
   exists s, calculateNextEntryDate sel now = Some (s + 180 * DAY) /\ In s sel /\
     count_days (fun d => s <? d) sel <= 90 /\ 91 <= count_days (fun d => s <=? d) sel).
Proof.
  unfold calculateNextEntryDate. split.
  - intros Hle. destruct (Z.leb_spec (calculateDaysInWindow sel now) 90); [done|lia].
  - intros Hgt. destruct (Z.leb_spec (calculateDaysInWindow sel now) 90); [lia|].
    pose proof (calculateDaysInWindow_le_length sel now) as Hlen.
    set (S := sort_by (fun d => d) sel).
    assert (HP : Permutation S sel) by apply sort_by_perm.
    assert (HSS : StronglySorted (key_le (fun d => d)) S).
    { apply Sorted_StronglySorted; [|apply sort_by_sorted].
      intros a b c; unfold key_le; lia. }
    assert (HlS : length S = length sel) by (apply Permutation_length, HP).
    rewrite next_entry_loop_spec by lia.
    destruct (Z.leb_spec 0 (Z.of_nat (length S) - 1 - (90 - 0))) as [_|]; [|lia].
    set (k := Z.to_nat (Z.of_nat (length S) - 1 - (90 - 0))).
    assert (Hk : (k < length S)%nat) by (subst k; lia).
    destruct (nth_split S 0 Hk) as (l1 & l2 & Heq & Hl1).
    set (s := nth k S 0) in *.
    assert (Hl2 : length l2 = 90%nat).
    { assert (length S = length (l1 ++ s :: l2)) as HL by (by rewrite <- Heq).
      rewrite List.length_app in HL. simpl in HL. subst k. lia. }
    rewrite Heq in HSS. destruct (strongly_sorted_split _ _ _ _ HSS) as [Hb Ha].
    unfold key_le in Hb, Ha.
    exists s. split; [done|]. split.
    { apply (Permutation_in _ HP). rewrite Heq. apply in_app_iff. right. by left. }
    rewrite <- !(count_days_perm _ _ _ HP), Heq, !count_days_app, !count_days_cons.
    rewrite (count_days_none (fun d => s <? d) l1)
      by (intros y Hy; apply Z.ltb_ge, Hb, Hy).
    rewrite (count_days_all (fun d => s <=? d) l2)
      by (intros y Hy; apply Z.leb_le, Ha, Hy).
    pose proof (count_days_le_length (fun d => s <? d) l2) as H2.
    pose proof (count_days_bounds (fun d => s <=? d) l1) as H1.
    rewrite Hl2 in H2 |- *. rewrite Z.ltb_irrefl, Z.leb_refl. lia.
Qed.

(** ** page.tsx: future entry dates *)

Lemma availableDays_bounds (sel : list Z) (f : Z) :
  0 <= snd (calculateFutureStayInfo sel f) <= 90.
Proof.
  unfold calculateFutureStayInfo. simpl.
  pose proof (fold_count_map (fun k => k)
    (fun dt => (f - 180 * DAY <=? dt) && (dt <? f)) sel 0) as Hf.
  rewrite map_id in Hf. rewrite Hf.
  pose proof (count_days_bounds (fun k => (f - 180 * DAY <=? k) && (k <? f)) sel).
  lia.
Qed.

Lemma getMaxContinuousStay_pos (sel : list Z) (startDate : Z) :
  0 < snd (calculateFutureStayInfo sel startDate) ->
  1 <= getMaxContinuousStay sel startDate <= 90.
Proof.
  intros Hp. unfold getMaxContinuousStay.
  destruct (max_continuous_loop_spec sel startDate 90 0) as (n & -> & Hn & _ & Hstop).
  destruct n as [|n]; [|lia].
  exfalso. specialize (Hstop ltac:(lia)).
  replace (startDate + Z.of_nat 0 * DAY) with startDate in Hstop by lia. lia.
Qed.

Lemma instants_from_sorted (lo : Z) (s n : nat) :
  StronglySorted Z.lt (map (fun i => lo + Z.of_nat i * DAY) (seq s n)).
Proof.
  revert s. induction n as [|n IH]; intros s; simpl; constructor; [apply IH|].
  apply Forall_forall. intros x Hx. apply list_elem_of_In, in_map_iff in Hx.
  destruct Hx as (i & <- & Hi). apply in_seq in Hi. unfold DAY. lia.
Qed.

(** X19: the future available dates are, in increasing order, the days
    1 to 365 after [now] on which days are available, and from each of
    them a continuous stay of at least one day is possible. *)
Theorem getFutureAvailableDates_spec (sel : list Z) (now : Z) :
  (forall x, In x (getFutureAvailableDates sel now) <->
     exists i, 1 <= i <= 365 /\ x = now + i * DAY /\
       0 < snd (calculateFutureStayInfo sel x)) /\
  StronglySorted Z.lt (getFutureAvailableDates sel now) /\
  (forall x, In x (getFutureAvailableDates sel now) ->
     1 <= getMaxContinuousStay sel x <= 90).
Proof.
  unfold getFutureAvailableDates.
  assert (Hin : forall x, In x (List.filter (fun checkDate =>
      0 <? snd (calculateFutureStayInfo sel checkDate))
      (map (fun i => now + DAY + Z.of_nat i * DAY) (seq 0 365))) <->
     exists i, 1 <= i <= 365 /\ x = now + i * DAY /\
       0 < snd (calculateFutureStayInfo sel x)).
  { intros x. rewrite filter_In, in_map_iff, Z.ltb_lt. split.
    - intros ((i & <- & Hi) & Hp). apply in_seq in Hi.
      exists (Z.of_nat i + 1). split; [lia|]. split; [lia|done].
    - intros (i & Hi & -> & Hp). split; [|done].
      exists (Z.to_nat (i - 1)). rewrite Z2Nat.id by lia. split; [lia|].
      apply in_seq. lia. }
  split; [exact Hin|]. split.
  - apply filter_strongly_sorted, instants_from_sorted.
  - intros x Hx. apply Hin in Hx as (i & _ & _ & Hp). by apply getMaxContinuousStay_pos.
Qed.

(** X20: a click on a future date records it only when days are available
    on it; the recorded entry is the clicked date, with between 1 and 90
    available days and a continuous stay of 1 to 90 days. *)
Theorem handleFutureDateClick_spec (sel : list Z) (date : Z) :
  (handleFutureDateClick sel date = None <-> snd (calculateFutureStayInfo sel date) = 0) /\
  (forall info, handleFutureDateClick sel date = Some info ->
     fs_entryDate info = date /\ 1 <= fs_availableDays info <= 90 /\
     1 <= fs_maxDays info <= 90 /\
     fs_maxDays info = getMaxContinuousStay sel date).
Proof.
  unfold handleFutureDateClick. pose proof (availableDays_bounds sel date) as Hb.
  pose proof (getMaxContinuousStay_pos sel date) as Hm.
  remember (snd (calculateFutureStayInfo sel date)) as a eqn:Ha.
  destruct (Z.ltb_spec 0 a) as [Hp|Hz].
  - split; [split; [discriminate|lia]|].
    intros info [= <-]. cbn [fs_entryDate fs_maxDays fs_availableDays].
    specialize (Hm Hp). split; [done|]. split; [lia|]. split; [lia|done].
  - split; [split; [lia|done]|]. discriminate.
Qed.
